(** * Estatistica: descriptive statistics of a numeric sample

    A shallow embedding of [src/main.py].  The class [Estatistica] holds a
    list of floats ([dados]) and offers the sample-size formula
    ([calculo_amostral]), mean, median, mode, standard deviation, Pearson's
    skewness coefficient, kurtosis, and the summary [resumir] that labels
    skewness and kurtosis.

    Numbers are IEEE 754 binary64 values, as Python's [float] and numpy's
    [float64] are; they are the kernel's primitive floats here.  Two
    arithmetic regimes meet in the source and are kept apart:
    - the arguments of [calculo_amostral] are Python floats, whose [/]
      raises [ZeroDivisionError] and whose [**] raises [OverflowError];
    - everything computed from [dados] is a numpy [float64] scalar, whose
      [/] follows IEEE 754 (it yields [nan] or [inf], with a warning at
      most, and raises nothing).

    Addition, subtraction, multiplication, division and square root are
    correctly rounded, as IEEE 754 requires.  A power is not: both Python's
    [x ** 2] and the [**] of a float64 scalar call [pow] of the C math
    library, whose last bit is the library's own.  That function is the
    one parameter of the development (the class [Py.Libm]); every general
    statement holds for every math library, and the worked samples are
    evaluated with [libm_rn], whose [pow(x, 2.0)] is the rounded square.

    The numpy and scipy routines the methods delegate to are modelled in
    the modules [np] and [st] from their code (numpy 1.2x, scipy 1.9 and
    later: [moda] passes [keepdims], which scipy 1.9 introduced). *)

From Stdlib Require Import ZArith List Bool String Ascii Lia Permutation Sorted.
From Stdlib Require Import Floats.
Import ListNotations.

Set Warnings "-inexact-float".

(** Conversion of an integer to the nearest float (ties to even). *)
Definition Z2F (z : Z) : float := SF2Prim (binary_normalize prec emax z 0 false).

(** ** Python: exceptions and the operations of the built-in float *)

Module Py.

Inductive exn : Type :=
| NameError (msg : string)
| ZeroDivisionError
| OverflowError
| ValueError.

Inductive result (A : Type) : Type :=
| Ok (v : A)
| Raise (e : exn).

Arguments Ok {A} v.
Arguments Raise {A} e.

Definition bind {A B : Type} (m : result A) (k : A -> result B) : result B :=
  match m with
  | Ok v => k v
  | Raise e => Raise e
  end.

(** [x / y] on Python floats: a zero divisor raises, whatever [x] is. *)
Definition truediv (x y : float) : result float :=
  if (y =? 0)%float then Raise ZeroDivisionError else Ok (x / y)%float.

(** What [errno] holds after a call of the math library: nothing, a range
    error, or any other error. *)
Inductive errno : Type :=
| E0
| ERANGE
| EDOM.

(** The C math library: [pow x y] is the value of [pow(x, y)] and the
    [errno] it leaves. *)
Class Libm : Type := { pow : float -> float -> float * errno }.

(** [x ** 2] on a Python float ([float_pow] with the exponent 2.0).  A
    [nan] base is returned as it is, an infinite base gives [inf], a zero
    base gives [0.0]; a negative base is replaced by its opposite (the
    exponent is even, so the result is not negated); a base of 1 gives 1.
    Every other base goes to [pow] of the math library; an infinite result
    counts as a range error, a range error with a zero result is dropped;
    a range error raises [OverflowError] and any other error
    [ValueError]. *)
Definition pow2 {L : Libm} (x : float) : result float :=
  if is_nan x then Ok x
  else if is_infinity x then Ok (abs x)
  else if (x =? 0)%float then Ok 0%float
  else
    let iv := if (x <? 0)%float then (- x)%float else x in
    if (iv =? 1)%float then Ok 1%float
    else
      let (ix, e) := pow iv 2%float in
      let e := match e with
               | E0 => if is_infinity ix then ERANGE else E0
               | ERANGE => if (ix =? 0)%float then E0 else ERANGE
               | EDOM => EDOM
               end in
      match e with
      | E0 => Ok ix
      | ERANGE => Raise OverflowError
      | EDOM => Raise ValueError
      end.

(** Conversion of a Python int operand to float (for [float * int]): an int
    beyond the float range raises [OverflowError]. *)
Definition of_int (n : Z) : result float :=
  let f := Z2F n in
  if is_infinity f then Raise OverflowError else Ok f.

(** The integer nearest to [m * 2^e], ties to even. *)
Definition nearest_even (m : positive) (e : Z) : Z :=
  if (0 <=? e)%Z then (Z.pos m * 2 ^ e)%Z
  else
    let d := (2 ^ (- e))%Z in
    let q := (Z.pos m / d)%Z in
    let r := (Z.pos m mod d)%Z in
    if (2 * r <? d)%Z then q
    else if (d <? 2 * r)%Z then (q + 1)%Z
    else if Z.even q then q else (q + 1)%Z.

(** [round(x)] with one argument: the nearest int, ties to even; [nan]
    raises [ValueError] and an infinity raises [OverflowError]. *)
Definition round (x : float) : result Z :=
  match Prim2SF x with
  | S754_nan => Raise ValueError
  | S754_infinity _ => Raise OverflowError
  | S754_zero _ => Ok 0%Z
  | S754_finite s m e =>
      Ok (if s then (- nearest_even m e)%Z else nearest_even m e)
  end.

End Py.

Import Py.

Notation "x <- m ;; k" := (Py.bind m (fun x => k))
  (at level 61, m at next level, right associativity).

(** A math library whose [pow(x, 2.0)] is the correctly rounded square and
    sets no [errno]; the worked samples are evaluated with it. *)
Definition libm_rn : Libm :=
  {| pow := fun x y => if (y =? 2)%float then ((x * x)%float, E0) else (nan, EDOM) |}.

(** A math library that differs from [libm_rn] in one value: [pow] of
    [0x1.edac054c8f94cp+3] and 2 is 238, one unit in the last place above
    the rounded square, as a library that is not correctly rounded may
    return. *)
Definition libm_238 : Libm :=
  {| pow := fun x y =>
       if (x =? 0x1.edac054c8f94cp+3)%float && (y =? 2)%float
       then (238%float, E0) else pow (Libm := libm_rn) x y |}.

(** ** numpy *)

Module np.

Local Open Scope float_scope.

(** [x / y] on float64 scalars: IEEE 754 division; a zero divisor gives
    [nan] or an infinity and a [RuntimeWarning], never an exception. *)
Definition true_divide (x y : float) : float := x / y.

(** The unrolled loop of the pairwise sum: [r[j] += a[i + j]] for the
    eight accumulators and the eight elements of one block. *)
Fixpoint add8 (r block : list float) : list float :=
  match r, block with
  | x :: r', y :: block' => (x + y) :: add8 r' block'
  | _, _ => r
  end.

(** [k] rounds of the loop [for (i = 8; i < n - n % 8; i += 8)]: the
    accumulators, and the elements not yet read. *)
Fixpoint unrolled (k : nat) (r rest : list float) : list float * list float :=
  match k with
  | O => (r, rest)
  | S k' => unrolled k' (add8 r (firstn 8 rest)) (skipn 8 rest)
  end.

(** [((r[0] + r[1]) + (r[2] + r[3])) + ((r[4] + r[5]) + (r[6] + r[7]))] *)
Definition tree8 (r : list float) : float :=
  match r with
  | [r0; r1; r2; r3; r4; r5; r6; r7] =>
      ((r0 + r1) + (r2 + r3)) + ((r4 + r5) + (r6 + r7))
  | _ => 0
  end.

Definition PW_BLOCKSIZE : nat := 128.

(** [pairwise_sum]: fewer than eight elements are added one after the
    other, starting from [-0.0] (which leaves every float as it is, so that
    a sum of negative zeros is a negative zero); up to [PW_BLOCKSIZE]
    elements are added into
    eight accumulators, which are then added as a tree, and the elements
    left over (fewer than eight) are added to the result one after the
    other; a longer array is cut in two near its middle, at a multiple of
    eight, and the sums of the two parts are added.  [fuel] bounds the
    depth of the recursion; the length of the array is enough. *)
Fixpoint pairwise_sum (fuel : nat) (a : list float) : float :=
  match fuel with
  | O => 0
  | S fuel' =>
      let n := List.length a in
      if (n <? 8)%nat then fold_left add a neg_zero
      else if (n <=? PW_BLOCKSIZE)%nat then
        let (r, rest) := unrolled (n / 8 - 1) (firstn 8 a) (skipn 8 a) in
        fold_left add rest (tree8 r)
      else
        let n2 := (n / 2 - (n / 2) mod 8)%nat in
        pairwise_sum fuel' (firstn n2 a) + pairwise_sum fuel' (skipn n2 a)
  end.

(** [np.add.reduce] over a contiguous float64 array: the result starts as
    [0.0] when the array is empty and as [-0.0] when it is not, and the
    pairwise sum of the whole array is added to it.  (Older releases of
    numpy start both sums from [0.0]; the one difference is the sign of a
    sum whose terms are all [-0.0].) *)
Definition add_reduce (a : list float) : float :=
  (match a with [] => 0 | _ :: _ => neg_zero end)
  + pairwise_sum (S (List.length a)) a.

(** The element count as numpy divides by it. *)
Definition count (a : list float) : float := Z2F (Z.of_nat (List.length a)).

(** [np.mean]: the sum divided by the count; [nan] for an empty array. *)
Definition mean (a : list float) : float := add_reduce a / count a.

(** numpy's sorting order on floats: [<] with every [nan] placed last. *)
Definition lt (a b : float) : bool :=
  (a <? b) || (is_nan b && negb (is_nan a)).

Fixpoint insert (x : float) (l : list float) : list float :=
  match l with
  | [] => [x]
  | y :: l' => if lt x y then x :: l else y :: insert x l'
  end.

(** [np.sort] *)
Definition sort (a : list float) : list float := fold_right insert [] a.

Definition slice (lo hi : nat) (l : list float) : list float :=
  firstn (hi - lo) (skipn lo l).

(** [np.median]: the middle element of the sorted array, or the mean of
    the two middle ones when the length is even; [nan] as soon as the array
    holds one, or is empty. *)
Definition median (a : list float) : float :=
  let part := sort a in
  let n := List.length a in
  let index := Nat.div n 2 in
  if existsb is_nan a then nan
  else if Nat.odd n then mean (slice index (index + 1) part)
  else mean (slice (index - 1) (index + 1) part).

(** [np.var(a, ddof)]: the mean is subtracted, the deviations are squared
    and summed, and the sum is divided by [max(N - ddof, 0)]. *)
Definition var (a : list float) (ddof : Z) : float :=
  let arrmean := mean a in
  let x := map (fun v => v - arrmean) a in
  let x := map (fun v => v * v) x in
  add_reduce x / Z2F (Z.max (Z.of_nat (List.length a) - ddof) 0).

(** [np.std(a, ddof)]; [ddof] defaults to 0. *)
Definition std (a : list float) (ddof : Z) : float := sqrt (var a ddof).

(** [np.rint]: the nearest integral float, ties to even.  Floats of
    magnitude [2^52] and more are integral already; below, adding and
    subtracting [2^52] rounds in the current (nearest-even) mode. *)
Definition rint (x : float) : float :=
  if abs x <? 0x1p52 then
    let r := (abs x + 0x1p52) - 0x1p52 in
    if get_sign x then - r else r
  else x.

Fixpoint pow10 (decimals : nat) : float :=
  match decimals with
  | O => 1
  | S d => 10 * pow10 d
  end.

(** [round(x, decimals)] on a float64 scalar ([np.round]): scale by
    [10**decimals], [rint], scale back.  The result is a float64. *)
Definition round_ (x : float) (decimals : nat) : float :=
  rint (x * pow10 decimals) / pow10 decimals.

(** Run lengths of a sorted array: each run's first element with the
    length of the run.  Neighbours are compared with [!=]; the [nan]s,
    which are last and differ from one another, are made one run
    ([equal_nan] is set by default). *)
Fixpoint runs (l : list float) : list (float * Z) :=
  match l with
  | [] => []
  | x :: l' =>
      match runs l' with
      | (k, c) :: r => if (x =? k) || (is_nan x && is_nan k)
                       then (x, (c + 1)%Z) :: r
                       else (x, 1%Z) :: (k, c) :: r
      | [] => [(x, 1%Z)]
      end
  end.

(** [np.unique(a, return_counts=True)]: the sorted distinct values, each
    with the number of times it occurs. *)
Definition unique_counts (a : list float) : list (float * Z) := runs (sort a).

(** [vals[cnts.argmax()], cnts.max()]: the first entry whose count is the
    largest. *)
Fixpoint first_max (best : float * Z) (u : list (float * Z)) : float * Z :=
  match u with
  | [] => best
  | kc :: u' => first_max (if (snd best <? snd kc)%Z then kc else best) u'
  end.

End np.

(** ** scipy.stats *)

Module st.

Local Open Scope float_scope.

(** [st.mode(a, keepdims=False)]: the pair [(mode, count)] of the most
    common value and its number of occurrences; among several most common
    values the smallest is returned, and [nan] counts as one value, the
    largest.  An empty array gives [(nan, 0)]. *)
Definition mode (a : list float) : float * Z :=
  match np.unique_counts a with
  | [] => (nan, 0%Z)
  | kc :: u => np.first_max kc u
  end.

(** The central moments of order 2 and 4 as [scipy.stats] computes them
    (by repeated squaring of the deviations from the mean). *)
Definition moment2 (a : list float) (mean : float) : float :=
  let a_zero_mean := map (fun v => v - mean) a in
  let s := map (fun v => v * v) a_zero_mean in
  np.mean s.

Definition moment4 (a : list float) (mean : float) : float :=
  let a_zero_mean := map (fun v => v - mean) a in
  let s := map (fun v => v * v) a_zero_mean in
  let s := map (fun v => v * v) s in
  np.mean s.

(** [np.finfo(np.float64).eps], the distance from 1.0 to the next
    float. *)
Definition eps : float := 0x1p-52.

(** [x ** 2] on a float64 scalar: [pow] of the math library; nothing is
    raised. *)
Definition power2 {L : Libm} (x : float) : float := fst (pow x 2).

(** [st.kurtosis(a, fisher)]: [m4 / m2**2.0], minus 3 when [fisher] is
    set; [nan] when the variance [m2] is not above [(eps * mean)**2], that
    is when the sample is constant up to rounding.  (Older releases of
    scipy compare with [finfo.resolution], 1e-15, in place of [eps]; an
    exactly constant sample gives [nan] with both.) *)
Definition kurtosis {L : Libm} (a : list float) (fisher : bool) : float :=
  let mean := np.mean a in
  let m2 := moment2 a mean in
  let m4 := moment4 a mean in
  let zero := m2 <=? power2 (eps * mean) in
  let vals := if zero then nan else m4 / power2 m2 in
  if fisher then vals - 3 else vals.

End st.

(** ** The summary record

    [resumir] returns a dict with six fixed keys.  The values under
    ['pearson'] and ['curtose'] are a float64 or, when the analysis is
    asked for, a [str] built by an f-string that starts with the number:
    [Texto v resto] stands for the text [f'{v}'] followed by [resto]. *)

Inductive campo : Type :=
| Numero (v : float)
| Texto (v : float) (resto : string).

Module Resumo.

Record t : Type := mk {
  media : float;
  mediana : float;
  moda : option float;
  desvio_padrao : float;
  pearson : campo;
  curtose : campo
}.

End Resumo.

(** ** class Estatistica *)

Module Estatistica.

Local Open Scope float_scope.

(** [calculo_amostral(confianca, p, erro, N)]; the operands are evaluated
    left to right, so the first failing operation decides the exception. *)
Definition calculo_amostral {L : Libm} (confianca p erro : float) (N : Z) :
  result Z :=
  c2 <- Py.pow2 confianca ;;
  e2 <- Py.pow2 erro ;;
  n0 <- Py.truediv (c2 * p * (1 - p)) e2 ;;
  c2' <- Py.pow2 confianca ;;
  e2' <- Py.pow2 erro ;;
  Nf <- Py.of_int N ;;
  q <- Py.truediv (c2' * p * (1 - p)) (e2' * Nf) ;;
  n <- Py.truediv n0 (1 + q) ;;
  Py.round n.

(** [np.mean] and [np.median] return float64 scalars. *)
Definition media (array : list float) : float := np.mean array.

Definition mediana (array : list float) : float := np.median array.

(** [moda[0] if moda[1] > 1 else None] *)
Definition moda (array : list float) : option float :=
  let moda := st.mode array in
  if (1 <? snd moda)%Z then Some (fst moda) else None.

(** [round(np.std(array), 4)]: [np.std] is called with its default
    [ddof = 0]; [round] of a float64 scalar is numpy's and returns a
    float64. *)
Definition desvio_padrao (array : list float) : float :=
  np.round_ (np.std array 0) 4.

(** Both operands of [/] are float64 scalars, so the division is numpy's:
    nothing is raised when [desvio_padrao] is zero. *)
Definition coef_pearson (array : list float) : float :=
  np.true_divide (3 * (media array - mediana array)) (desvio_padrao array).

(** [round(st.kurtosis(array, fisher=False), 3)] *)
Definition curtose {L : Libm} (array : list float) : float :=
  np.round_ (st.kurtosis array false) 3.

(** The intensity shared by both skewed branches:
    ["MODERADA" if 0.15 < abs(pearson_value) < 1 else "FORTE"]. *)
Definition intensidade (v : float) : string :=
  if (0.15 <? abs v) && (abs v <? 1) then "MODERADA"%string else "FORTE"%string.

(** Lines 101-108: the label of the rounded Pearson coefficient. *)
Definition analise_pearson (pearson_value : float) : campo :=
  if pearson_value =? 0 then
    Texto pearson_value " - Simétrica"
  else if 0 <? pearson_value then
    Texto pearson_value
      (" - Assimétrica à direita ou positiva - " ++ intensidade pearson_value)
  else
    Texto pearson_value
      (" - Assimétrica à esquerda ou negativa - " ++ intensidade pearson_value).

(** Lines 111-116: the label of the rounded kurtosis. *)
Definition analise_curtose (curtose_value : float) : campo :=
  if curtose_value =? 0.263 then Texto curtose_value " - Mesocúrtica"
  else if 0.263 <? curtose_value then Texto curtose_value " - Platicúrtica"
  else Texto curtose_value " - Leptocúrtica".

Definition aspas : string := String (ascii_of_nat 34) EmptyString.

Definition mensagem : string :=
  ("Variável " ++ aspas ++ "dados" ++ aspas ++ " não foi criada")%string.

(** [resumir(analise)] on an object built with [dados]: [if self.dados]
    holds for a non-empty list; the only [raise] is the one of the [else]
    branch. *)
Definition resumir {L : Libm} (dados : list float) (analise : bool) :
  result Resumo.t :=
  match dados with
  | _ :: _ =>
      let pearson_value := np.round_ (coef_pearson dados) 3 in
      let curtose_value := curtose dados in
      let pearson_value :=
        if analise then analise_pearson pearson_value else Numero pearson_value in
      let curtose_value :=
        if analise then analise_curtose curtose_value else Numero curtose_value in
      Ok (Resumo.mk (media dados) (mediana dados) (moda dados)
            (desvio_padrao dados) pearson_value curtose_value)
  | [] => Raise (NameError mensagem)
  end.

End Estatistica.

Import Estatistica.

(** ** The page: calls to seaborn, matplotlib and streamlit

    [plotar] and [enviar] compute nothing of their own: they call the
    plotting libraries and the page.  Their embedding records these calls,
    in order, next to the result; what the libraries draw is outside. *)

Module Tela.

(** What an f-string formats after a label: a float64, the mode (a float64
    or [None]), or a field of the summary (a float64 or a [str]). *)
Inductive valor : Type :=
| de_float (v : float)
| de_moda (m : option float)
| de_campo (c : campo).

(** The calls; [ax] is the index into [axs]. *)
Inductive chamada : Type :=
| sns_set_theme
| plt_subplots (nrows ncols : nat) (figsize : Z * Z)
| fig_suptitle (t : string)
| sns_kdeplot (dados : list float) (ax : nat)
| sns_histplot (dados : list float) (ax : nat)
| sns_boxplot (dados : list float) (ax : nat)
| set_ylabel (ax : nat) (ylabel : string)
| set_title (ax : nat) (label : string)
| set_xticks (ax : nat) (ticks : list float)
| plt_show
| stream_pyplot
| stream_header (body : string)
| stream_write (rotulo : string) (v : valor).

(** A computation: the calls made so far, and a value or the exception
    that ended it. *)
Definition io (A : Type) : Type := (list chamada * result A)%type.

Definition ret {A : Type} (a : A) : io A := ([], Ok a).

Definition raise {A : Type} (e : exn) : io A := ([], Raise e).

Definition lift {A : Type} (r : result A) : io A := ([], r).

Definition call (c : chamada) : io unit := ([c], Ok tt).

Definition bind {A B : Type} (m : io A) (k : A -> io B) : io B :=
  match m with
  | (t, Ok a) => let (t', r) := k a in (t ++ t', r)
  | (t, Raise e) => (t, Raise e)
  end.

End Tela.

Import Tela.

Notation "x <~ m ;; k" := (Tela.bind m (fun x => k))
  (at level 61, m at next level, right associativity).
Notation "m ;;; k" := (Tela.bind m (fun _ => k))
  (at level 61, right associativity).

(** [Estatistica.plotar(streamlit)] on an object built with [dados]. *)
Definition plotar (dados : list float) (streamlit : bool) : io unit :=
  match dados with
  | _ :: _ =>
      call sns_set_theme ;;;
      call (plt_subplots 1 3 (18, 5)%Z) ;;;
      call (fig_suptitle "DISTRIBUIÇÃO DOS DADOS") ;;;
      call (sns_kdeplot dados 0) ;;;
      call (set_ylabel 0 "Probabilidade") ;;;
      call (set_title 0 "Densidade por Kernel") ;;;
      call (sns_histplot dados 1) ;;;
      call (set_ylabel 1 "Ocorrências") ;;;
      call (set_title 1 "Histograma") ;;;
      call (sns_boxplot dados 2) ;;;
      call (set_ylabel 2 "Valores encontrados") ;;;
      call (set_xticks 2 []) ;;;
      call (set_title 2 "Boxplot") ;;;
      if negb streamlit then call plt_show else call stream_pyplot
  | [] => raise (NameError mensagem)
  end.

(** The two [str] methods of [enviar]. *)
Module Str.

(** [s.split(sep)] with a separator of one character: the text is cut at
    every separator; empty pieces are kept, so there is always a piece. *)
Fixpoint split (sep : ascii) (s : string) : list string :=
  match s with
  | EmptyString => [EmptyString]
  | String c s' =>
      if Ascii.eqb c sep then EmptyString :: split sep s'
      else match split sep s' with
           | z :: zs => String c z :: zs
           | [] => [String c EmptyString]
           end
  end.

(** [s.replace(old, new)] with [old] of one character. *)
Fixpoint replace (old : ascii) (new : string) (s : string) : string :=
  match s with
  | EmptyString => EmptyString
  | String c s' =>
      if Ascii.eqb c old then (new ++ replace old new s')%string
      else String c (replace old new s')
  end.

End Str.

Section Pagina.

Context {L : Libm}.

(** Python's [float(z)] on a [str] and [str.strip()] are the
    interpreter's; they are parameters here.  [float] either returns a
    float or raises [ValueError] ([None]). *)
Variable float_of_str : string -> option float.
Variable strip : string -> string.

(** [[float(z) for z in tokens]]: the pieces are converted in order and
    the first one that [float] rejects raises. *)
Fixpoint floats (tokens : list string) : result (list float) :=
  match tokens with
  | [] => Ok []
  | z :: tokens' =>
      match float_of_str z with
      | Some x => xs <- floats tokens' ;; Ok (x :: xs)
      | None => Raise ValueError
      end
  end.

(** [enviar(data)].  The first statement computes a text without spaces
    and drops it: [data] itself is what is split. *)
Definition enviar (data : string) : io unit :=
  let _ := Str.replace " " "" (strip data) in
  data <~ lift (floats (Str.split "," data)) ;;
  call (stream_header "Análise") ;;;
  plotar data true ;;;
  a <~ lift (resumir data true) ;;
  call (stream_write "*Média:* " (de_float (Resumo.media a))) ;;;
  call (stream_write "*Mediana:* " (de_float (Resumo.mediana a))) ;;;
  call (stream_write "*Moda:* " (de_moda (Resumo.moda a))) ;;;
  call (stream_write "*Desvio padrão:* " (de_float (Resumo.desvio_padrao a))) ;;;
  call (stream_write "*Pearson:* " (de_campo (Resumo.pearson a))) ;;;
  call (stream_write "*Curtose:* " (de_campo (Resumo.curtose a))).

End Pagina.

(** ** Vocabulary of the statements *)

(** The IEEE comparison of two floats: [None] when one of them is [nan]. *)
Definition fcmp (x y : float) : option comparison :=
  SFcompare (Prim2SF x) (Prim2SF y).

(** A sample of numbers: no element is [nan]. *)
Definition all_numbers (a : list float) : bool :=
  forallb (fun x => negb (is_nan x)) a.

(** The number of elements of [a] equal to [x] (with [==], so that [0.0]
    and [-0.0] are one value). *)
Definition freq (x : float) (a : list float) : Z :=
  Z.of_nat (List.length (filter (fun y => (y =? x)%float) a)).

(** The largest frequency of a value of [a]; 0 for the empty sample. *)
Definition max_freq (a : list float) : Z :=
  fold_right (fun x m => Z.max (freq x a) m) 0%Z a.

(** The order of a sorted array: [x] is not above [y]. *)
Definition fle (x y : float) : Prop := (y <? x)%float = false.

(** Strictly increasing keys of a table of counts. *)
Definition key_lt (p q : float * Z) : Prop := (fst p <? fst q)%float = true.

(** The tie-break as the specification words it: scanning the sample in
    its given order, the first value whose running count reaches the
    maximum frequency. *)
Fixpoint scan_reaching (m : Z) (seen rest : list float) : option float :=
  match rest with
  | [] => None
  | x :: rest' =>
      if (freq x (x :: seen) =? m)%Z then Some x
      else scan_reaching m (x :: seen) rest'
  end.

Definition first_reaching_max (a : list float) : option float :=
  scan_reaching (max_freq a) [] a.

(** [c in s] and [s.count(c)] for a character [c]. *)
Fixpoint ocorre (c : ascii) (s : string) : bool :=
  match s with
  | EmptyString => false
  | String c' s' => Ascii.eqb c' c || ocorre c s'
  end.

Fixpoint conta (c : ascii) (s : string) : nat :=
  match s with
  | EmptyString => O
  | String c' s' => (if Ascii.eqb c' c then 1 else 0) + conta c s'
  end.

(** [sep.join(pieces)] *)
Fixpoint join (sep : ascii) (pieces : list string) : string :=
  match pieces with
  | [] => EmptyString
  | [z] => z
  | z :: pieces' => (z ++ String sep (join sep pieces'))%string
  end.

(** The six lines [enviar] writes for a summary. *)
Definition linhas (a : Resumo.t) : list chamada :=
  [stream_write "*Média:* " (de_float (Resumo.media a));
   stream_write "*Mediana:* " (de_float (Resumo.mediana a));
   stream_write "*Moda:* " (de_moda (Resumo.moda a));
   stream_write "*Desvio padrão:* " (de_float (Resumo.desvio_padrao a));
   stream_write "*Pearson:* " (de_campo (Resumo.pearson a));
   stream_write "*Curtose:* " (de_campo (Resumo.curtose a))].

(** The calls of [plotar] that come before the rendering. *)
Definition figura (dados : list float) : list chamada :=
  [sns_set_theme; plt_subplots 1 3 (18, 5)%Z;
   fig_suptitle "DISTRIBUIÇÃO DOS DADOS";
   sns_kdeplot dados 0; set_ylabel 0 "Probabilidade";
   set_title 0 "Densidade por Kernel";
   sns_histplot dados 1; set_ylabel 1 "Ocorrências";
   set_title 1 "Histograma";
   sns_boxplot dados 2; set_ylabel 2 "Valores encontrados";
   set_xticks 2 []; set_title 2 "Boxplot"].

(** Two floats that are one value: the same float, or two zeros. *)
Definition same (x y : float) : Prop :=
  x = y \/ ((x =? 0)%float = true /\ (y =? 0)%float = true).

(** [sum_of l v]: the float [v] is a sum of the elements of [l].  Every
    element is added exactly once; the order and the grouping of the
    additions are free, and so is the insertion of zeros of either sign
    (empty sums). *)
Inductive sum_of : list float -> float -> Prop :=
| sum_nil (z : float) : (z =? 0)%float = true -> sum_of [] z
| sum_one (x : float) : sum_of [x] x
| sum_add (l1 l2 : list float) (v1 v2 : float) :
    sum_of l1 v1 -> sum_of l2 v2 -> sum_of (l1 ++ l2) (v1 + v2)%float
| sum_perm (l l' : list float) (v : float) :
    Permutation l l' -> sum_of l v -> sum_of l' v.




(** ** The order of the floats *)

Section SpecOrder.

Lemma SFcompare_sym (x y : spec_float) :
  SFcompare y x = option_map CompOpp (SFcompare x y).
Proof.
  destruct x as [sx|sx| |sx mx ex], y as [sy|sy| |sy my ey];
    try destruct sx; try destruct sy; simpl; try reflexivity;
    rewrite (Z.compare_antisym ex ey);
    destruct (ex ?= ey)%Z; simpl; try reflexivity;
    change (Pos.compare_cont Eq my mx) with (Pos.compare my mx);
    change (Pos.compare_cont Eq mx my) with (Pos.compare mx my);
    rewrite (Pos.compare_antisym mx my);
    now rewrite ?CompOpp_involutive.
Qed.

Lemma SFcompare_refl (x : spec_float) :
  x <> S754_nan -> SFcompare x x = Some Eq.
Proof.
  destruct x as [sx|sx| |sx mx ex]; try destruct sx; simpl; try congruence;
    intros _; rewrite Z.compare_refl;
    change (Pos.compare_cont Eq mx mx) with (Pos.compare mx mx);
    now rewrite Pos.compare_refl.
Qed.

(** Case analysis on every comparison of exponents and mantissas. *)
Ltac cmp_cases :=
  repeat match goal with
  | |- context [(?a ?= ?b)%Z] => destruct (Z.compare_spec a b)
  | H : context [(?a ?= ?b)%Z] |- _ => destruct (Z.compare_spec a b)
  | |- context [Pos.compare_cont Eq ?a ?b] =>
      change (Pos.compare_cont Eq a b) with (Pos.compare a b);
      destruct (Pos.compare_spec a b)
  | H : context [Pos.compare_cont Eq ?a ?b] |- _ =>
      change (Pos.compare_cont Eq a b) with (Pos.compare a b) in H;
      destruct (Pos.compare_spec a b)
  end.

Lemma SFcompare_trans (c : comparison) (x y z : spec_float) :
  SFcompare x y = Some c -> SFcompare y z = Some c -> SFcompare x z = Some c.
Proof.
  destruct x as [sx|sx| |sx mx ex], y as [sy|sy| |sy my ey],
           z as [sz|sz| |sz mz ez];
    try destruct sx; try destruct sy; try destruct sz; simpl;
    try congruence;
    intros H1 H2; cmp_cases; simpl in *; subst;
    try congruence; try lia.
Qed.

Lemma SFcompare_eq_l (x y z : spec_float) :
  SFcompare x y = Some Eq -> SFcompare x z = SFcompare y z.
Proof.
  destruct x as [sx|sx| |sx mx ex], y as [sy|sy| |sy my ey],
           z as [sz|sz| |sz mz ez];
    try destruct sx; try destruct sy; try destruct sz; simpl;
    try congruence;
    intros H1; cmp_cases; simpl in *; subst;
    try congruence; try lia.
Qed.

Lemma SFcompare_Eq (x y : spec_float) :
  SFcompare x y = Some Eq ->
  x = y \/ exists s s', x = S754_zero s /\ y = S754_zero s'.
Proof.
  destruct x as [sx|sx| |sx mx ex], y as [sy|sy| |sy my ey];
    try destruct sx; try destruct sy; simpl; try discriminate; eauto;
    intros H; cmp_cases; simpl in *; subst; try discriminate; auto.
Qed.

End SpecOrder.

Section FloatOrder.

Local Open Scope float_scope.

Lemma feqb_fcmp (x y : float) : (x =? y) = true <-> fcmp x y = Some Eq.
Proof.
  rewrite eqb_spec. unfold SFeqb, fcmp.
  destruct (SFcompare _ _) as [[]|]; split; congruence.
Qed.

Lemma fltb_fcmp (x y : float) : (x <? y) = true <-> fcmp x y = Some Lt.
Proof.
  rewrite ltb_spec. unfold SFltb, fcmp.
  destruct (SFcompare _ _) as [[]|]; split; congruence.
Qed.

Lemma fleb_fcmp (x y : float) :
  (x <=? y) = true <-> fcmp x y = Some Lt \/ fcmp x y = Some Eq.
Proof.
  rewrite leb_spec. unfold SFleb, fcmp.
  destruct (SFcompare _ _) as [[]|]; split; intuition congruence.
Qed.

Lemma fcmp_sym (x y : float) : fcmp y x = option_map CompOpp (fcmp x y).
Proof. apply SFcompare_sym. Qed.

Lemma is_nan_Prim2SF (x : float) : is_nan x = true <-> Prim2SF x = S754_nan.
Proof.
  split; intros H.
  - unfold Prim2SF. now rewrite H.
  - unfold is_nan. rewrite eqb_spec. unfold SFeqb. now rewrite H.
Qed.

Lemma fcmp_total (x y : float) :
  is_nan x = false -> is_nan y = false -> exists c, fcmp x y = Some c.
Proof.
  intros Hx Hy. unfold fcmp.
  assert (Prim2SF x <> S754_nan) by (rewrite <- is_nan_Prim2SF; congruence).
  assert (Prim2SF y <> S754_nan) by (rewrite <- is_nan_Prim2SF; congruence).
  destruct (Prim2SF x), (Prim2SF y); simpl; eauto; congruence.
Qed.


Lemma feqb_refl (x : float) : is_nan x = false -> (x =? x) = true.
Proof. unfold is_nan. now destruct (x =? x). Qed.

Lemma feqb_sym (x y : float) : (x =? y) = (y =? x).
Proof.
  apply eq_true_iff_eq. rewrite !feqb_fcmp, (fcmp_sym x y).
  destruct (fcmp x y) as [[]|]; simpl; split; congruence.
Qed.

Lemma feqb_trans (x y z : float) :
  (x =? y) = true -> (y =? z) = true -> (x =? z) = true.
Proof. rewrite !feqb_fcmp. apply SFcompare_trans. Qed.

Lemma fltb_trans (x y z : float) :
  (x <? y) = true -> (y <? z) = true -> (x <? z) = true.
Proof. rewrite !fltb_fcmp. apply SFcompare_trans. Qed.

Lemma feqb_compat_l (x y z : float) :
  (x =? y) = true -> fcmp x z = fcmp y z.
Proof. rewrite feqb_fcmp. apply SFcompare_eq_l. Qed.

Lemma feqb_compat_r (x y z : float) :
  (x =? y) = true -> fcmp z x = fcmp z y.
Proof.
  intros H. rewrite (fcmp_sym x z), (fcmp_sym y z).
  now rewrite (feqb_compat_l x y z H).
Qed.

Lemma feqb_eqb_l (x y z : float) :
  (x =? y) = true -> (x =? z) = (y =? z).
Proof.
  intros H. apply eq_true_iff_eq. now rewrite !feqb_fcmp, (feqb_compat_l x y z H).
Qed.

Lemma feqb_eqb_r (x y z : float) :
  (x =? y) = true -> (z =? x) = (z =? y).
Proof.
  intros H. apply eq_true_iff_eq. now rewrite !feqb_fcmp, (feqb_compat_r x y z H).
Qed.

Lemma feqb_ltb_l (x y z : float) :
  (x =? y) = true -> (x <? z) = (y <? z).
Proof.
  intros H. apply eq_true_iff_eq. now rewrite !fltb_fcmp, (feqb_compat_l x y z H).
Qed.

Lemma feqb_ltb_r (x y z : float) :
  (x =? y) = true -> (z <? x) = (z <? y).
Proof.
  intros H. apply eq_true_iff_eq. now rewrite !fltb_fcmp, (feqb_compat_r x y z H).
Qed.

Lemma fltb_not_eqb (x y : float) : (x <? y) = true -> (x =? y) = false.
Proof.
  rewrite fltb_fcmp. intros H. apply not_true_is_false.
  rewrite feqb_fcmp. congruence.
Qed.

Lemma fltb_asym (x y : float) : (x <? y) = true -> (y <? x) = false.
Proof.
  rewrite fltb_fcmp. intros H. apply not_true_is_false.
  rewrite fltb_fcmp, (fcmp_sym x y), H. discriminate.
Qed.

Lemma fltb_irrefl (x : float) : (x <? x) = false.
Proof.
  destruct (x <? x) eqn:E; [|reflexivity].
  pose proof (fltb_asym x x E). congruence.
Qed.

Lemma fltb_total (x y : float) :
  is_nan x = false -> is_nan y = false ->
  (x <? y) = false -> (x =? y) = false -> (y <? x) = true.
Proof.
  intros Hx Hy Hlt Heq. destruct (fcmp_total x y Hx Hy) as [c Hc].
  rewrite fltb_fcmp, (fcmp_sym x y), Hc.
  destruct c; simpl; try reflexivity.
  - apply feqb_fcmp in Hc. congruence.
  - apply fltb_fcmp in Hc. congruence.
Qed.

Lemma fleb_not_ltb (x y : float) : (x <=? y) = true -> (y <? x) = false.
Proof.
  rewrite fleb_fcmp. intros H. apply not_true_is_false.
  rewrite fltb_fcmp, (fcmp_sym x y).
  destruct H as [H|H]; rewrite H; discriminate.
Qed.

End FloatOrder.

Section Sorting.

Local Open Scope float_scope.

Lemma all_numbers_Forall (a : list float) :
  all_numbers a = true <-> Forall (fun x => is_nan x = false) a.
Proof.
  unfold all_numbers. rewrite forallb_forall, Forall_forall.
  split; intros H x Hx; specialize (H x Hx); now destruct (is_nan x).
Qed.

Lemma lt_numbers (x y : float) : is_nan y = false -> np.lt x y = (x <? y).
Proof. intros H. unfold np.lt. rewrite H. simpl. now rewrite orb_false_r. Qed.

Lemma insert_perm (x : float) (l : list float) :
  Permutation (x :: l) (np.insert x l).
Proof.
  induction l as [|y l IH]; simpl; [reflexivity|].
  destruct (np.lt x y); [reflexivity|].
  rewrite perm_swap. now constructor.
Qed.

Lemma sort_perm (a : list float) : Permutation a (np.sort a).
Proof.
  induction a as [|x a IH]; simpl; [constructor|].
  rewrite <- insert_perm. now constructor.
Qed.

Lemma fle_trans (x y z : float) :
  is_nan x = false -> is_nan y = false -> is_nan z = false ->
  fle x y -> fle y z -> fle x z.
Proof.
  unfold fle. intros Hx Hy Hz Hxy Hyz.
  apply not_true_is_false. intros Hzx.
  destruct (x =? y) eqn:E.
  - rewrite (feqb_ltb_r x y z E) in Hzx. congruence.
  - pose proof (fltb_total y x Hy Hx Hxy) as H.
    rewrite feqb_sym in H. specialize (H E).
    rewrite (fltb_trans z x y Hzx H) in Hyz. discriminate.
Qed.

Lemma insert_sorted (x : float) (l : list float) :
  is_nan x = false -> Forall (fun y => is_nan y = false) l ->
  StronglySorted fle l -> StronglySorted fle (np.insert x l).
Proof.
  intros Hx Hl Hs. induction l as [|y l IH]; simpl.
  - repeat constructor.
  - inversion Hl as [|? ? Hy Hl']; subst.
    inversion Hs as [|? ? Hs' Hall]; subst.
    rewrite (lt_numbers x y Hy).
    destruct (x <? y) eqn:E.
    + constructor; [assumption|].
      assert (Hxy : fle x y) by (apply fltb_asym; exact E).
      constructor; [exact Hxy|].
      rewrite Forall_forall in *. intros z Hz.
      apply (fle_trans x y z); auto.
    + constructor; [now apply IH|].
      rewrite Forall_forall in *. intros z Hz.
      apply (Permutation_in _ (Permutation_sym (insert_perm x l))) in Hz.
      destruct Hz as [<-|Hz]; [exact E|now apply Hall].
Qed.

Lemma sort_sorted (a : list float) :
  Forall (fun y => is_nan y = false) a -> StronglySorted fle (np.sort a).
Proof.
  induction 1 as [|x a Hx Ha IH]; simpl; [constructor|].
  apply insert_sorted; auto.
  apply (Permutation_Forall (sort_perm a)). exact Ha.
Qed.

Lemma numbers_no_nan (a : list float) :
  all_numbers a = true -> existsb is_nan a = false.
Proof.
  unfold all_numbers. induction a as [|x a IH]; simpl; [reflexivity|].
  rewrite andb_true_iff, negb_true_iff. intros [-> H]. now apply IH.
Qed.

End Sorting.

Section Frequencies.

Local Open Scope float_scope.

Lemma freq_cons (x y : float) (a : list float) :
  freq x (y :: a) = ((if (y =? x)%float then 1 else 0) + freq x a)%Z.
Proof. unfold freq. simpl. destruct (y =? x); cbn [List.length]; lia. Qed.

Lemma freq_nonneg (x : float) (a : list float) : (0 <= freq x a)%Z.
Proof. unfold freq. lia. Qed.

Lemma freq_perm (x : float) (a b : list float) :
  Permutation a b -> freq x a = freq x b.
Proof.
  induction 1 as [|y a b _ IH|y z a|a b c _ IH1 _ IH2].
  - reflexivity.
  - rewrite !freq_cons. lia.
  - rewrite !freq_cons. lia.
  - congruence.
Qed.

Lemma freq_eqb (x y : float) (a : list float) :
  (x =? y) = true -> freq x a = freq y a.
Proof.
  intros H. induction a as [|z a IH]; [reflexivity|].
  rewrite !freq_cons, IH, (feqb_eqb_r x y z H). reflexivity.
Qed.

Lemma freq_in (x : float) (a : list float) :
  In x a -> is_nan x = false -> (1 <= freq x a)%Z.
Proof.
  intros Hin Hx. induction a as [|z a IH]; [contradiction|].
  rewrite freq_cons. pose proof (freq_nonneg x a).
  destruct Hin as [->|Hin].
  - rewrite (feqb_refl x Hx). lia.
  - specialize (IH Hin). destruct (z =? x); lia.
Qed.

Lemma freq_zero (x : float) (a : list float) :
  Forall (fun y => (y =? x) = false) a -> freq x a = 0%Z.
Proof.
  induction 1 as [|y a Hy _ IH]; [reflexivity|].
  rewrite freq_cons, Hy, IH. reflexivity.
Qed.

Lemma max_freq_aux_ge (b a : list float) (x : float) :
  In x a -> (freq x b <= fold_right (fun x m => Z.max (freq x b) m) 0%Z a)%Z.
Proof.
  induction a as [|y a IH]; simpl; [contradiction|].
  intros [->|H]; [lia|]. specialize (IH H). lia.
Qed.

Lemma max_freq_ge (a : list float) (x : float) :
  In x a -> (freq x a <= max_freq a)%Z.
Proof. apply max_freq_aux_ge. Qed.

Lemma max_freq_aux_attained (b a : list float) :
  a <> [] ->
  exists x, In x a /\ fold_right (fun x m => Z.max (freq x b) m) 0%Z a = freq x b.
Proof.
  induction a as [|y a IH]; [congruence|]. intros _. simpl.
  destruct a as [|z a].
  - exists y. split; [now left|]. simpl. pose proof (freq_nonneg y b). lia.
  - destruct IH as [x [Hx E]]; [discriminate|].
    destruct (Z.max_spec (freq y b)
                (fold_right (fun x m => Z.max (freq x b) m) 0%Z (z :: a)))
      as [[_ ->]|[_ ->]].
    + exists x. split; [now right|exact E].
    + exists y. split; [now left|reflexivity].
Qed.

Lemma max_freq_attained (a : list float) :
  a <> [] -> exists x, In x a /\ max_freq a = freq x a.
Proof. apply max_freq_aux_attained. Qed.

End Frequencies.

Section Mode.

Local Open Scope float_scope.

(** What [np.runs] computes on a sorted array of numbers: every entry is
    an element with its frequency, every element is represented by an
    entry, the keys increase strictly, and the first key is the first
    element. *)
Lemma runs_spec (l : list float) :
  Forall (fun y => is_nan y = false) l -> StronglySorted fle l ->
  (forall k c, In (k, c) (np.runs l) -> In k l /\ c = freq k l) /\
  (forall x, In x l -> exists k c, In (k, c) (np.runs l) /\ (k =? x) = true) /\
  StronglySorted key_lt (np.runs l) /\
  (forall k c r, np.runs l = (k, c) :: r -> exists l', l = k :: l').
Proof.
  induction l as [|x l IH]; intros Hn Hs.
  - simpl. refine (conj _ (conj _ (conj _ _)));
      try contradiction; try constructor; discriminate.
  - inversion Hn as [|? ? Hx Hn']; subst.
    inversion Hs as [|? ? Hs' Hall]; subst.
    destruct (IH Hn' Hs') as (Hi & Hii & Hiii & Hiv). clear IH.
    rewrite Forall_forall in Hall.
    simpl. destruct (np.runs l) as [|[k c] r] eqn:E.
    + assert (l = []) as ->.
      { destruct l as [|y l]; [reflexivity|].
        destruct (Hii y (or_introl eq_refl)) as (? & ? & [] & _). }
      refine (conj _ (conj _ (conj _ _))).
      * intros k c [H|[]]. inversion H; subst. split; [now left|].
        rewrite freq_cons, (feqb_refl _ Hx). reflexivity.
      * intros y [<-|[]]. exists x, 1%Z. split; [now left|now apply feqb_refl].
      * repeat constructor.
      * intros k c r H. inversion H; subst. now exists [].
    + destruct (Hiv k c r eq_refl) as [l' ->].
      inversion Hiii as [|? ? Hr Hkr]; subst. rewrite Forall_forall in Hkr.
      assert (Hk : In (k, c) ((k, c) :: r)) by now left.
      destruct (Hi k c Hk) as [_ Hc].
      rewrite Hx, andb_false_l, orb_false_r.
      destruct (x =? k) eqn:Exk.
      * refine (conj _ (conj _ (conj _ _))).
        -- intros k0 c0 [H|H]; split.
           ++ inversion H; subst; now left.
           ++ rewrite (freq_cons k0 x). inversion H; subst.
              rewrite (feqb_refl _ Hx), (freq_eqb k0 k _ Exk). lia.
           ++ right. now apply (Hi k0 c0 (or_intror H)).
           ++ rewrite (freq_cons k0 x).
              destruct (Hi k0 c0 (or_intror H)) as [_ ->].
              specialize (Hkr _ H). unfold key_lt in Hkr. simpl in Hkr.
              rewrite <- (feqb_ltb_l x k k0 Exk) in Hkr.
              now rewrite (fltb_not_eqb _ _ Hkr).
        -- intros y [<-|Hy].
           ++ exists x, (c + 1)%Z. split; [now left|now apply feqb_refl].
           ++ destruct (Hii y Hy) as (k0 & c0 & [H|H] & Hky).
              ** exists x, (c + 1)%Z. split; [now left|].
                 apply (feqb_trans x k y); [assumption|].
                 now replace k with k0 by congruence.
              ** exists k0, c0. split; [now right|assumption].
        -- constructor; [assumption|]. rewrite Forall_forall.
           intros q Hq. specialize (Hkr q Hq). unfold key_lt in *. simpl in *.
           now rewrite (feqb_ltb_l x k (fst q) Exk).
        -- intros k0 c0 r0 H. inversion H; subst. eauto.
      * assert (Hlt : (x <? k) = true).
        { apply (fltb_total k x).
          - inversion Hn'; assumption.
          - exact Hx.
          - apply (Hall k). now left.
          - rewrite feqb_sym. exact Exk. }
        assert (Hkeys : forall k0 c0, In (k0, c0) ((k, c) :: r) ->
                                      (x <? k0) = true).
        { intros k0 c0 [H|H]; [inversion H; subst; assumption|].
          specialize (Hkr _ H). unfold key_lt in Hkr. simpl in Hkr.
          now apply (fltb_trans x k k0). }
        refine (conj _ (conj _ (conj _ _))).
        -- intros k0 c0 [H|H]; split.
           ++ inversion H; subst; now left.
           ++ rewrite (freq_cons k0 x). inversion H; subst.
              rewrite (feqb_refl _ Hx), freq_zero; [reflexivity|].
              rewrite Forall_forall. intros y Hy.
              destruct (Hii y Hy) as (k1 & c1 & Hin & Hky).
              specialize (Hkeys _ _ Hin).
              rewrite (feqb_ltb_r k1 y k0 Hky) in Hkeys.
              rewrite feqb_sym. now apply fltb_not_eqb.
           ++ right. now apply (Hi k0 c0 H).
           ++ rewrite (freq_cons k0 x).
              destruct (Hi k0 c0 H) as [_ ->].
              now rewrite (fltb_not_eqb _ _ (Hkeys _ _ H)).
        -- intros y [<-|Hy].
           ++ exists x, 1%Z. split; [now left|now apply feqb_refl].
           ++ destruct (Hii y Hy) as (k0 & c0 & H & Hky).
              exists k0, c0. split; [now right|assumption].
        -- constructor; [assumption|]. rewrite Forall_forall.
           intros [k0 c0] Hq. exact (Hkeys _ _ Hq).
        -- intros k0 c0 r0 H. inversion H; subst. eauto.
Qed.

Lemma first_max_in (best : float * Z) (u : list (float * Z)) :
  In (np.first_max best u) (best :: u).
Proof.
  revert best. induction u as [|kc u IH]; intros best; simpl; [now left|].
  destruct (IH (if (snd best <? snd kc)%Z then kc else best)) as [H|H].
  - rewrite <- H. destruct (snd best <? snd kc)%Z; auto.
  - auto.
Qed.

Lemma first_max_ge (best : float * Z) (u : list (float * Z)) :
  forall p, In p (best :: u) -> (snd p <= snd (np.first_max best u))%Z.
Proof.
  revert best. induction u as [|kc u IH]; intros best p; simpl.
  - intros [<-|[]]. lia.
  - set (b := if (snd best <? snd kc)%Z then kc else best).
    assert (Hb : (snd best <= snd b)%Z /\ (snd kc <= snd b)%Z).
    { unfold b. destruct (Z.ltb_spec (snd best) (snd kc)); lia. }
    pose proof (IH b b (or_introl eq_refl)).
    intros [<-|[<-|H']]; try lia.
    apply IH. now right.
Qed.

Lemma first_max_first (best : float * Z) (u : list (float * Z)) :
  StronglySorted key_lt (best :: u) ->
  forall q, In q (best :: u) -> snd q = snd (np.first_max best u) ->
            q = np.first_max best u \/ key_lt (np.first_max best u) q.
Proof.
  revert best. induction u as [|kc u IH]; intros best Hs q; simpl.
  - intros [<-|[]] _. now left.
  - inversion Hs as [|? ? Hs' Hall]; subst.
    inversion Hall as [|? ? Hbk Hall']; subst.
    inversion Hs' as [|? ? Hs'' Hall'']; subst.
    destruct (Z.ltb_spec (snd best) (snd kc)) as [Hlt|Hle].
    + pose proof (first_max_ge kc u kc (or_introl eq_refl)) as Hge.
      intros [<-|Hq] Heq; [lia|]. now apply IH.
    + assert (Hsb : StronglySorted key_lt (best :: u))
        by (constructor; assumption).
      pose proof (first_max_ge best u best (or_introl eq_refl)) as Hge.
      intros [<-|[<-|Hq]] Heq.
      * apply IH; auto. now left.
      * destruct (IH best Hsb best (or_introl eq_refl)) as [H|H]; [lia| |].
        -- right. rewrite <- H. exact Hbk.
        -- right. unfold key_lt in *. now apply (fltb_trans _ (fst best)).
      * apply IH; auto. now right.
Qed.

(** [st.mode] on a non-empty sample of numbers: the value returned is an
    element, the count is its frequency, no element is more frequent, and
    no element as frequent is smaller. *)
Lemma mode_spec (a : list float) :
  all_numbers a = true -> a <> [] ->
  In (fst (st.mode a)) a /\
  snd (st.mode a) = freq (fst (st.mode a)) a /\
  (forall y, In y a -> (freq y a <= snd (st.mode a))%Z) /\
  (forall y, In y a -> freq y a = snd (st.mode a) -> fle (fst (st.mode a)) y).
Proof.
  intros Hn Hne. apply all_numbers_Forall in Hn.
  pose proof (sort_perm a) as Hp.
  pose proof (sort_sorted a Hn) as Hs.
  pose proof (Permutation_Forall Hp Hn) as Hn'.
  destruct (runs_spec (np.sort a) Hn' Hs) as (Hi & Hii & Hiii & _).
  unfold st.mode, np.unique_counts.
  destruct (np.runs (np.sort a)) as [|kc u] eqn:E.
  - destruct a as [|x a]; [congruence|].
    destruct (Hii x (Permutation_in _ Hp (or_introl eq_refl))) as (? & ? & [] & _).
  - pose proof (first_max_in kc u) as Hin.
    destruct (np.first_max kc u) as [v c] eqn:Ev. simpl.
    destruct (Hi v c Hin) as [Hv Hc].
    assert (Hfreq : forall y, freq y (np.sort a) = freq y a)
      by (intros y; symmetry; now apply freq_perm).
    refine (conj _ (conj _ (conj _ _))).
    + exact (Permutation_in _ (Permutation_sym Hp) Hv).
    + now rewrite <- Hfreq.
    + intros y Hy.
      destruct (Hii y (Permutation_in _ Hp Hy)) as (k0 & c0 & H0 & Hky).
      pose proof (first_max_ge kc u (k0, c0) H0) as Hge.
      rewrite Ev in Hge. simpl in Hge.
      destruct (Hi k0 c0 H0) as [_ Hc0].
      rewrite <- (freq_eqb k0 y a Hky), <- Hfreq. lia.
    + intros y Hy Hyc.
      destruct (Hii y (Permutation_in _ Hp Hy)) as (k0 & c0 & H0 & Hky).
      destruct (Hi k0 c0 H0) as [_ Hc0].
      assert (Hc0c : c0 = c).
      { rewrite Hc0, Hfreq, (freq_eqb k0 y a Hky). exact Hyc. }
      destruct (first_max_first kc u Hiii (k0, c0) H0) as [H|H].
      * rewrite Ev. simpl. exact Hc0c.
      * rewrite Ev in H. inversion H; subst.
        unfold fle. rewrite (feqb_ltb_r v y y Hky). apply fltb_irrefl.
      * rewrite Ev in H. unfold key_lt in H. simpl in H.
        unfold fle. rewrite <- (feqb_ltb_l k0 y v Hky).
        now apply fltb_asym.
Qed.

End Mode.

(** ** Facts of IEEE arithmetic used below *)

Section Arithmetic.

Local Open Scope float_scope.

Lemma Prim2SF_eq_zero (x : float) :
  (x =? 0) = true -> exists s, Prim2SF x = S754_zero s.
Proof.
  rewrite feqb_fcmp. unfold fcmp.
  change (Prim2SF 0) with (S754_zero false).
  destruct (Prim2SF x) as [s|s| |s m e]; simpl; try discriminate; eauto;
    destruct s; discriminate.
Qed.

Lemma feqb_zero_cases (x : float) : (x =? 0) = true -> x = 0 \/ x = neg_zero.
Proof.
  intros H. destruct (Prim2SF_eq_zero x H) as [[|] Hs].
  - right. now apply Prim2SF_inj.
  - left. now apply Prim2SF_inj.
Qed.

(** A float64 division by zero gives [nan] or an infinity. *)
Lemma div_by_zero (x y : float) :
  (y =? 0) = true -> x / y = nan \/ x / y = infinity \/ x / y = neg_infinity.
Proof.
  intros H. destruct (Prim2SF_eq_zero y H) as [s Hs].
  pose proof (div_spec x y) as D. rewrite Hs in D.
  unfold SF64div, SFdiv in D.
  destruct (Prim2SF x) as [sx|sx| |sx mx ex].
  - left. now apply Prim2SF_inj.
  - right. destruct (xorb sx s); [right|left]; now apply Prim2SF_inj.
  - left. now apply Prim2SF_inj.
  - right. destruct (xorb sx s); [right|left]; now apply Prim2SF_inj.
Qed.

(** Zero divided by zero is [nan]. *)
Lemma zero_div_zero (x y : float) :
  (x =? 0) = true -> (y =? 0) = true -> x / y = nan.
Proof.
  intros Hx Hy.
  destruct (feqb_zero_cases x Hx) as [-> | ->],
           (feqb_zero_cases y Hy) as [-> | ->]; reflexivity.
Qed.

Lemma three_times_zero (x : float) : (x =? 0) = true -> (3 * x =? 0) = true.
Proof. intros H. destruct (feqb_zero_cases x H) as [-> | ->]; reflexivity. Qed.

Lemma is_finite_Prim2SF (x : float) :
  is_finite x = true ->
  (exists s, Prim2SF x = S754_zero s) \/
  (exists s m e, Prim2SF x = S754_finite s m e).
Proof.
  unfold is_finite. rewrite negb_true_iff, orb_false_iff. intros [Hn Hi].
  destruct (Prim2SF x) as [s|s| |s m e] eqn:E; eauto.
  - exfalso. unfold is_infinity in Hi. rewrite eqb_spec, abs_spec, E in Hi.
    discriminate.
  - exfalso. apply is_nan_Prim2SF in E. congruence.
Qed.


End Arithmetic.

(** ** Summation *)

Section Summation.

Local Open Scope float_scope.

Lemma fold_add_sum (a l0 : list float) (acc : float) :
  sum_of l0 acc -> sum_of (l0 ++ a) (fold_left add a acc).
Proof.
  revert l0 acc. induction a as [|x a IH]; intros l0 acc H; simpl.
  - now rewrite app_nil_r.
  - replace (l0 ++ x :: a) with ((l0 ++ [x]) ++ a)
      by now rewrite <- app_assoc.
    apply IH. apply sum_add; [exact H|constructor].
Qed.

Lemma add8_length (r block : list float) :
  List.length (np.add8 r block) = List.length r.
Proof.
  revert block. induction r as [|x r IH]; intros [|y block]; simpl; auto.
Qed.

(** One round of the unrolled loop: every accumulator has taken one
    element of the block. *)
Lemma add8_sum (Ls : list (list float)) (r : list float) :
  Forall2 sum_of Ls r ->
  forall block, (List.length block <= List.length r)%nat ->
  exists Ls', Forall2 sum_of Ls' (np.add8 r block) /\
              Permutation (List.concat Ls') (List.concat Ls ++ block).
Proof.
  induction 1 as [|l v Ls r Hl HLs IH]; intros [|y block] Hlen;
    simpl in Hlen; try lia.
  - exists []. split; constructor.
  - exists (l :: Ls). split; [now constructor|].
    now rewrite app_nil_r.
  - destruct (IH block ltac:(lia)) as (Ls' & HF & HP).
    exists ((l ++ [y]) :: Ls'). split.
    + simpl. constructor; [|exact HF]. apply sum_add; [exact Hl|constructor].
    + simpl. rewrite <- !app_assoc. apply Permutation_app_head. simpl.
      apply (perm_trans (l' := y :: List.concat Ls ++ block)).
      * now apply perm_skip.
      * apply Permutation_middle.
Qed.

Lemma unrolled_sum (k : nat) :
  forall (Ls : list (list float)) (r rest : list float),
    Forall2 sum_of Ls r -> (8 <= List.length r)%nat ->
    exists Ls',
      Forall2 sum_of Ls' (fst (np.unrolled k r rest)) /\
      List.length (fst (np.unrolled k r rest)) = List.length r /\
      Permutation (List.concat Ls' ++ snd (np.unrolled k r rest))
                  (List.concat Ls ++ rest).
Proof.
  induction k as [|k IH]; intros Ls r rest HF Hr; simpl.
  - exists Ls. split; [exact HF|]. split; reflexivity.
  - assert (Hb : (List.length (firstn 8 rest) <= List.length r)%nat).
    { rewrite length_firstn. lia. }
    destruct (add8_sum Ls r HF _ Hb) as (Ls1 & HF1 & HP1).
    destruct (IH Ls1 (np.add8 r (firstn 8 rest)) (skipn 8 rest) HF1)
      as (Ls' & HF' & HL' & HP').
    { now rewrite add8_length. }
    exists Ls'. split; [exact HF'|]. split.
    + rewrite <- (add8_length r (firstn 8 rest)). exact HL'.
    + apply (perm_trans HP').
      apply (perm_trans (l' := (List.concat Ls ++ firstn 8 rest) ++ skipn 8 rest)).
      * now apply Permutation_app_tail.
      * now rewrite <- app_assoc, firstn_skipn.
Qed.

Lemma tree8_sum (Ls : list (list float)) (r : list float) :
  Forall2 sum_of Ls r -> List.length r = 8%nat ->
  sum_of (List.concat Ls) (np.tree8 r).
Proof.
  intros HF Hr.
  destruct HF as [|l0 v0 ? ? H0 HF]; [discriminate|].
  destruct HF as [|l1 v1 ? ? H1 HF]; [discriminate|].
  destruct HF as [|l2 v2 ? ? H2 HF]; [discriminate|].
  destruct HF as [|l3 v3 ? ? H3 HF]; [discriminate|].
  destruct HF as [|l4 v4 ? ? H4 HF]; [discriminate|].
  destruct HF as [|l5 v5 ? ? H5 HF]; [discriminate|].
  destruct HF as [|l6 v6 ? ? H6 HF]; [discriminate|].
  destruct HF as [|l7 v7 ? ? H7 HF]; [discriminate|].
  destruct HF; [|discriminate]. simpl.
  replace (l0 ++ l1 ++ l2 ++ l3 ++ l4 ++ l5 ++ l6 ++ l7 ++ [])
    with (((l0 ++ l1) ++ (l2 ++ l3)) ++ ((l4 ++ l5) ++ (l6 ++ l7)))
    by (rewrite app_nil_r, <- !app_assoc; reflexivity).
  repeat apply sum_add; assumption.
Qed.

Lemma singletons_sum (r : list float) :
  Forall2 sum_of (map (fun x => [x]) r) r /\
  List.concat (map (fun x => [x]) r) = r.
Proof.
  induction r as [|x r [IH1 IH2]]; simpl; split;
    try constructor; try assumption; try constructor.
  now rewrite IH2.
Qed.

(** The pairwise sum adds every element of the array exactly once. *)
Lemma pairwise_sum_sum (fuel : nat) :
  forall a : list float,
    (1 <= fuel)%nat -> (List.length a + 1 <= 128 + fuel)%nat ->
    sum_of a (np.pairwise_sum fuel a).
Proof.
  induction fuel as [|fuel IH]; intros a H1 Hn; [lia|].
  cbn [np.pairwise_sum]. destruct (Nat.ltb_spec (List.length a) 8) as [H8|H8].
  - exact (fold_add_sum a [] neg_zero (sum_nil neg_zero eq_refl)).
  - unfold np.PW_BLOCKSIZE.
    destruct (Nat.leb_spec (List.length a) 128) as [Hb|Hb].
    + destruct (singletons_sum (firstn 8 a)) as [HF HC].
      assert (Hr : (8 <= List.length (firstn 8 a))%nat)
        by (rewrite length_firstn; lia).
      destruct (unrolled_sum (List.length a / 8 - 1) _ _ (skipn 8 a) HF Hr)
        as (Ls' & HF' & HL' & HP').
      destruct (np.unrolled _ _ _) as [r rest]. cbn [fst snd] in *.
      assert (Hr8 : List.length r = 8%nat)
        by (rewrite HL', length_firstn; lia).
      apply (sum_perm (List.concat Ls' ++ rest)).
      * apply (perm_trans HP'). now rewrite HC, firstn_skipn.
      * apply fold_add_sum. now apply tree8_sum.
    + set (n2 := (List.length a / 2 - (List.length a / 2) mod 8)%nat).
      assert (Hn2 : (1 <= n2 /\ n2 < List.length a)%nat).
      { unfold n2.
        pose proof (Nat.div_mod_eq (List.length a) 2).
        pose proof (Nat.mod_upper_bound (List.length a) 2 ltac:(lia)).
        pose proof (Nat.mod_upper_bound (List.length a / 2) 8 ltac:(lia)).
        lia. }
      rewrite <- (firstn_skipn n2 a) at 1.
      apply sum_add; apply IH; try lia.
      * rewrite length_firstn. lia.
      * rewrite length_skipn. lia.
Qed.

(** [np.add.reduce] adds every element of the array exactly once. *)
Lemma add_reduce_sum (a : list float) : sum_of a (np.add_reduce a).
Proof.
  unfold np.add_reduce. change a with ([] ++ a) at 1.
  apply sum_add; [now destruct a; constructor|].
  apply pairwise_sum_sum; lia.
Qed.

(** Fewer than eight elements are added from left to right. *)
Lemma add_reduce_short (a : list float) :
  (List.length a < 8)%nat ->
  np.add_reduce a
  = (match a with [] => 0 | _ :: _ => neg_zero end)
    + fold_left add a neg_zero.
Proof.
  intros H. unfold np.add_reduce. cbn [np.pairwise_sum].
  destruct (Nat.ltb_spec (List.length a) 8); [reflexivity|lia].
Qed.

(** A sum of zeros is a zero. *)
Lemma sum_zeros (l : list float) (v : float) :
  sum_of l v -> Forall (fun x => (x =? 0) = true) l -> (v =? 0) = true.
Proof.
  induction 1 as [z Hz|x|l1 l2 v1 v2 _ IH1 _ IH2|l l' v Hp _ IH]; intros H.
  - exact Hz.
  - now inversion H.
  - apply Forall_app in H. destruct H as [Ha Hb].
    destruct (feqb_zero_cases v1 (IH1 Ha)) as [-> | ->],
             (feqb_zero_cases v2 (IH2 Hb)) as [-> | ->]; reflexivity.
  - apply IH. exact (Permutation_Forall (Permutation_sym Hp) H).
Qed.

(** A sum with a [nan] term is [nan]. *)
Lemma sum_nan (l : list float) (v : float) :
  sum_of l v -> In nan l -> v = nan.
Proof.
  assert (Hl : forall x, nan + x = nan).
  { intros x. apply Prim2SF_inj. rewrite add_spec. reflexivity. }
  assert (Hr : forall x, x + nan = nan).
  { intros x. apply Prim2SF_inj. rewrite add_spec.
    change (Prim2SF nan) with S754_nan. now destruct (Prim2SF x). }
  induction 1 as [z Hz|x|l1 l2 v1 v2 _ IH1 _ IH2|l l' v Hp _ IH]; intros H.
  - contradiction.
  - destruct H as [<-|[]]. reflexivity.
  - apply in_app_or in H. destruct H as [H|H].
    + now rewrite (IH1 H).
    + now rewrite (IH2 H).
  - apply IH. exact (Permutation_in _ (Permutation_sym Hp) H).
Qed.

End Summation.

(** ** The summary: errors and frame *)

Section Summary.

Local Open Scope float_scope.

(** The only exception of [resumir] is the one of the empty sample. *)
Lemma resumir_nonempty {L : Libm} (dados : list float) (analise : bool) :
  dados <> [] ->
  resumir dados analise =
    Ok (Resumo.mk (media dados) (mediana dados) (moda dados)
          (desvio_padrao dados)
          (if analise then analise_pearson (np.round_ (coef_pearson dados) 3)
           else Numero (np.round_ (coef_pearson dados) 3))
          (if analise then analise_curtose (curtose dados)
           else Numero (curtose dados))).
Proof. destruct dados; [congruence|reflexivity]. Qed.

(** C2. On the empty sample [resumir] raises the [NameError] of the empty
    sample whatever the flag [analise] is, and returns no record, neither
    a partial nor a default one. *)
Theorem resumir_empty_raises {L : Libm} :
  forall analise : bool,
    resumir [] analise = Raise (NameError mensagem) /\
    (forall r, resumir [] analise <> Ok r).
Proof. intros analise. split; [reflexivity|discriminate]. Qed.

(** C10. When [resumir] returns for both values of [analise], the fields
    [media], [mediana], [moda] and [desvio_padrao] of the two records are
    the same; only [pearson] and [curtose] change, from the rounded number
    to the text that starts with that number. *)
Theorem resumir_analise_frame {L : Libm} (dados : list float)
        (r1 r2 : Resumo.t) :
  resumir dados true = Ok r1 -> resumir dados false = Ok r2 ->
  Resumo.media r1 = Resumo.media r2 /\
  Resumo.mediana r1 = Resumo.mediana r2 /\
  Resumo.moda r1 = Resumo.moda r2 /\
  Resumo.desvio_padrao r1 = Resumo.desvio_padrao r2 /\
  (exists v resto,
      Resumo.pearson r2 = Numero v /\ Resumo.pearson r1 = Texto v resto) /\
  (exists k resto,
      Resumo.curtose r2 = Numero k /\ Resumo.curtose r1 = Texto k resto).
Proof.
  destruct dados as [|x dados]; [discriminate|].
  intros H1 H2.
  rewrite resumir_nonempty in H1, H2 by discriminate.
  injection H1 as <-. injection H2 as <-. simpl.
  repeat (split; [reflexivity|]). split.
  - exists (np.round_ (coef_pearson (x :: dados)) 3).
    unfold analise_pearson.
    destruct (_ =? 0); [|destruct (0 <? _)]; eauto.
  - exists (curtose (x :: dados)).
    unfold analise_curtose.
    destruct (_ =? 0.263); [|destruct (0.263 <? _)]; eauto.
Qed.

(** The frame on the sample [1, 2, 2, 3, 4]. *)
Lemma resumir_analise_frame_witness :
  exists r1 r2,
    resumir (L := libm_rn) [1; 2; 2; 3; 4] true = Ok r1 /\
    resumir (L := libm_rn) [1; 2; 2; 3; 4] false = Ok r2 /\
    Resumo.media r1 = Resumo.media r2 /\
    Resumo.moda r1 = Resumo.moda r2.
Proof.
  eexists. eexists. split; [reflexivity|]. split; [reflexivity|].
  pose proof (resumir_analise_frame (L := libm_rn) [1; 2; 2; 3; 4] _ _
                eq_refl eq_refl) as H.
  split; [apply H|apply H].
Defined.

End Summary.

(** ** Standard deviation and Pearson's coefficient *)

Section Dispersion.

Local Open Scope float_scope.

Lemma zero_div_nonzero (x y : float) :
  (x =? 0) = true -> is_nan y = false -> (y =? 0) = false ->
  (x / y =? 0) = true.
Proof.
  intros Hx Hn Hy. destruct (Prim2SF_eq_zero x Hx) as [s Hs].
  rewrite eqb_spec, div_spec, Hs. change (Prim2SF 0) with (S754_zero false).
  destruct (Prim2SF y) as [sy|sy| |sy my ey] eqn:E; try reflexivity.
  - rewrite eqb_spec, E in Hy. discriminate.
  - apply is_nan_Prim2SF in E. congruence.
Qed.






Lemma sub_self (c : float) : is_finite c = true -> c - c = 0.
Proof.
  intros H. apply Prim2SF_inj. rewrite sub_spec.
  change (Prim2SF 0) with (S754_zero false).
  destruct (is_finite_Prim2SF c H) as [[s ->]|(s & m & e & ->)].
  - destruct s; reflexivity.
  - unfold SF64sub, SFsub. rewrite Z.min_id. unfold shl_align.
    rewrite !Z.sub_diag. reflexivity.
Qed.

Lemma add_reduce_zeros (n : nat) : (np.add_reduce (repeat 0 n) =? 0) = true.
Proof.
  apply (sum_zeros (repeat 0 n)); [apply add_reduce_sum|].
  apply Forall_forall. intros x Hx. now rewrite (repeat_spec _ _ _ Hx).
Qed.

Lemma sqrt_round_zero (x : float) :
  (x =? 0) = true -> (np.round_ (sqrt x) 4 =? 0) = true.
Proof. intros H. destruct (feqb_zero_cases x H) as [-> | ->]; reflexivity. Qed.

(** A quotient that is a finite float has a divisor that is a non-zero
    number. *)
Lemma finite_quotient (x y : float) :
  is_finite (x / y) = true -> is_nan y = false /\ (y =? 0) = false.
Proof.
  intros H. split.
  - apply not_true_is_false. intros Hn. apply is_nan_Prim2SF in Hn.
    assert (E : x / y = nan).
    { apply Prim2SF_inj. rewrite div_spec, Hn.
      now destruct (Prim2SF x). }
    rewrite E in H. discriminate.
  - apply not_true_is_false. intros Hz.
    destruct (div_by_zero x y Hz) as [E|[E|E]]; rewrite E in H; discriminate.
Qed.

(** The standard deviation of a constant sample of a finite value whose
    mean is computed exactly is zero. *)
Lemma desvio_padrao_constant (c : float) (array : list float) :
  is_finite c = true -> Forall (eq c) array -> media array = c ->
  (desvio_padrao array =? 0) = true.
Proof.
  intros Hc Hall Hm. unfold desvio_padrao, np.std. apply sqrt_round_zero.
  unfold np.var. fold (media array). rewrite Hm.
  rewrite (Forall_eq_repeat Hall), !map_repeat, (sub_self c Hc).
  change (0 * 0) with 0. rewrite repeat_length.
  rewrite Z.sub_0_r, Z.max_l by lia.
  fold (np.count array).
  assert (Hf : is_finite (np.add_reduce array / np.count array) = true).
  { fold (np.mean array). fold (media array). now rewrite Hm. }
  destruct (finite_quotient _ _ Hf).
  apply zero_div_nonzero; [apply add_reduce_zeros|assumption|assumption].
Qed.

(** C1, counterexample.  On the constant sample [2, 2, 2] the standard
    deviation is 0 and [coef_pearson] does not fail: it returns [nan], and
    [resumir] returns a record whose [pearson] field carries that [nan]. *)
Lemma coef_pearson_constant_sample_no_error :
  desvio_padrao [2; 2; 2] = 0 /\
  coef_pearson [2; 2; 2] = nan /\
  resumir (L := libm_rn) [2; 2; 2] true
  = Ok (Resumo.mk 2 2 (Some 2) 0
          (Texto nan " - Assimétrica à esquerda ou negativa - FORTE")
          (Texto nan " - Leptocúrtica")).
Proof. repeat split. Qed.

(** C1, as the code has it.  No error is raised on a sample whose
    standard deviation is zero.  For a non-empty sample in which all values
    are one finite value [c], and whose mean and median are computed as
    [c], the standard deviation is zero and [coef_pearson] returns [nan].
    Whenever the standard deviation (rounded to 4 decimals) is zero,
    [coef_pearson] returns [nan] or an infinity, [nan] when the mean equals
    the median; rounding to 3 decimals keeps that value, and [resumir]
    returns a record with it, labelled "FORTE" when [analise] is set. *)
Theorem coef_pearson_zero_std {L : Libm} (array : list float)
        (analise : bool) :
  array <> [] ->
  (forall c, is_finite c = true -> Forall (eq c) array ->
             media array = c -> mediana array = c ->
             (desvio_padrao array =? 0) = true /\ coef_pearson array = nan) /\
  ((desvio_padrao array =? 0) = true ->
   let v := coef_pearson array in
   (v = nan \/ v = infinity \/ v = neg_infinity) /\
   ((media array - mediana array =? 0) = true -> v = nan) /\
   exists r,
     resumir array analise = Ok r /\
     Resumo.desvio_padrao r = desvio_padrao array /\
     Resumo.pearson r
     = if analise then
         Texto v (if v =? infinity
                  then " - Assimétrica à direita ou positiva - FORTE"
                  else " - Assimétrica à esquerda ou negativa - FORTE")
       else Numero v).
Proof.
  intros Hne. split.
  - intros c Hc Hall Hm Hmed.
    pose proof (desvio_padrao_constant c array Hc Hall Hm) as Hs.
    split; [exact Hs|]. unfold coef_pearson, np.true_divide.
    apply zero_div_zero; [|exact Hs].
    rewrite Hm, Hmed, (sub_self c Hc). reflexivity.
  - intros Hs v.
    assert (Hv : v = nan \/ v = infinity \/ v = neg_infinity)
      by (apply div_by_zero; exact Hs).
    split; [exact Hv|]. split.
    + intros Hd. apply zero_div_zero; [now apply three_times_zero|exact Hs].
    + rewrite (resumir_nonempty array analise Hne). eexists.
      split; [reflexivity|]. split; [reflexivity|]. simpl.
      fold v. destruct analise; destruct Hv as [-> | [-> | ->]]; reflexivity.
Qed.

(** The constant sample [2, 2, 2]. *)
Lemma coef_pearson_zero_std_witness :
  (desvio_padrao [2; 2; 2] =? 0) = true /\
  coef_pearson [2; 2; 2] = nan /\
  exists r, resumir (L := libm_rn) [2; 2; 2] true = Ok r /\
            Resumo.desvio_padrao r = desvio_padrao [2; 2; 2].
Proof.
  assert (Hne : [2; 2; 2] <> []) by discriminate.
  destruct (coef_pearson_zero_std (L := libm_rn) [2; 2; 2] true Hne)
    as [Hc Hz].
  destruct (Hc 2 eq_refl) as [Hs Hn];
    [repeat constructor|reflexivity|reflexivity|].
  destruct (Hz Hs) as (_ & _ & r & Hr & Hd & _).
  split; [exact Hs|]. split; [exact Hn|]. exists r. split; [exact Hr|exact Hd].
Defined.

End Dispersion.

(** ** The labels of skewness and kurtosis *)

Section Labels.

Local Open Scope float_scope.

Lemma intensidade_moderada (v : float) :
  intensidade v = "MODERADA"%string <->
  (0.15 <? abs v) = true /\ (abs v <? 1) = true.
Proof.
  unfold intensidade.
  destruct (0.15 <? abs v), (abs v <? 1); simpl;
    split; try discriminate; intuition discriminate.
Qed.

Lemma intensidade_forte (v : float) :
  intensidade v = "FORTE"%string <->
  ~ ((0.15 <? abs v) = true /\ (abs v <? 1) = true).
Proof.
  unfold intensidade.
  destruct (0.15 <? abs v), (abs v <? 1); simpl;
    split; try discriminate; intuition discriminate.
Qed.

(** The three branches of the skewness label. *)
Lemma analise_pearson_cases (v : float) :
  ((v =? 0) = true -> analise_pearson v = Texto v " - Simétrica") /\
  ((0 <? v) = true ->
   analise_pearson v
   = Texto v (" - Assimétrica à direita ou positiva - " ++ intensidade v)) /\
  ((v <? 0) = true ->
   analise_pearson v
   = Texto v (" - Assimétrica à esquerda ou negativa - " ++ intensidade v)).
Proof.
  unfold analise_pearson. repeat split; intros H.
  - now rewrite H.
  - rewrite feqb_sym, (fltb_not_eqb _ _ H), H. reflexivity.
  - now rewrite (fltb_not_eqb _ _ H), (fltb_asym _ _ H).
Qed.

(** C3. For every non-empty sample, [resumir] with [analise] set labels
    the Pearson coefficient rounded to 3 decimals, [v]: symmetric when
    [v == 0]; skewed to the right (positive) when [v > 0] and to the left
    (negative) when [v < 0], followed by the intensity, which is "MODERADA"
    exactly when [0.15 < |v| < 1] and "FORTE" otherwise, so for
    [|v| <= 0.15] as well as for [|v| >= 1]: 0.1 is "FORTE", 0.5 is
    "MODERADA" and 2.0 is "FORTE". *)
Theorem resumir_pearson_label {L : Libm} (dados : list float) :
  dados <> [] ->
  let v := np.round_ (coef_pearson dados) 3 in
  exists r,
    resumir dados true = Ok r /\
    ((v =? 0) = true -> Resumo.pearson r = Texto v " - Simétrica") /\
    ((0 <? v) = true ->
     Resumo.pearson r
     = Texto v (" - Assimétrica à direita ou positiva - " ++ intensidade v)) /\
    ((v <? 0) = true ->
     Resumo.pearson r
     = Texto v (" - Assimétrica à esquerda ou negativa - " ++ intensidade v)) /\
    (intensidade v = "MODERADA"%string <->
     (0.15 <? abs v) = true /\ (abs v <? 1) = true) /\
    (intensidade v = "FORTE"%string <->
     ~ ((0.15 <? abs v) = true /\ (abs v <? 1) = true)) /\
    ((abs v <=? 0.15) = true -> intensidade v = "FORTE"%string) /\
    ((1 <=? abs v) = true -> intensidade v = "FORTE"%string) /\
    intensidade 0.1 = "FORTE"%string /\
    intensidade 0.5 = "MODERADA"%string /\
    intensidade 2.0 = "FORTE"%string.
Proof.
  intros Hne v. rewrite (resumir_nonempty dados true Hne).
  eexists. split; [reflexivity|]. simpl. fold v.
  destruct (analise_pearson_cases v) as (H0 & Hpos & Hneg).
  repeat (split; [assumption|]).
  split; [apply intensidade_moderada|].
  split; [apply intensidade_forte|].
  split; [|split; [|repeat split]].
  - intros H. apply intensidade_forte. intros [H1 _].
    rewrite (fleb_not_ltb _ _ H) in H1. discriminate.
  - intros H. apply intensidade_forte. intros [_ H1].
    rewrite (fleb_not_ltb _ _ H) in H1. discriminate.
Qed.

(** The sample [1, 2, 2, 3, 4]: the coefficient 1.177 is positive and not
    below 1. *)
Lemma resumir_pearson_label_witness :
  exists r,
    resumir (L := libm_rn) [1; 2; 2; 3; 4] true = Ok r /\
    Resumo.pearson r
    = Texto 1.177 " - Assimétrica à direita ou positiva - FORTE".
Proof.
  assert (Hne : [1; 2; 2; 3; 4] <> []) by discriminate.
  destruct (resumir_pearson_label (L := libm_rn) [1; 2; 2; 3; 4] Hne)
    as (r & Hr & _ & Hpos & _).
  exists r. split; [exact Hr|]. exact (Hpos eq_refl).
Defined.





End Labels.

(** ** The mode *)

Section ModeClaims.

Local Open Scope float_scope.

Lemma mode_count_max (a : list float) :
  all_numbers a = true -> a <> [] -> snd (st.mode a) = max_freq a.
Proof.
  intros Hn Hne.
  destruct (mode_spec a Hn Hne) as (Hv & Hc & Hmax & _).
  destruct (max_freq_attained a Hne) as (x & Hx & Ex).
  pose proof (Hmax x Hx). pose proof (max_freq_ge a _ Hv). lia.
Qed.

(** C5. On a sample of numbers, [moda] returns [None] when no value
    occurs more than once, and when some value repeats it returns an
    element of the sample whose frequency is the largest one. *)
Theorem moda_absent_or_most_frequent (array : list float) :
  all_numbers array = true ->
  ((forall x, In x array -> freq x array = 1%Z) -> moda array = None) /\
  ((exists x, In x array /\ (1 < freq x array)%Z) ->
   exists v, moda array = Some v /\ In v array /\
             freq v array = max_freq array /\
             (forall y, In y array -> (freq y array <= freq v array)%Z)).
Proof.
  intros Hn. unfold moda. destruct array as [|x0 array]; [split|].
  - reflexivity.
  - intros (x & [] & _).
  - assert (Hne : x0 :: array <> []) by discriminate.
    destruct (mode_spec _ Hn Hne) as (Hv & Hc & Hmax & _).
    pose proof (mode_count_max _ Hn Hne) as Hm.
    split.
    + intros H1. rewrite Hc, (H1 _ Hv). reflexivity.
    + intros (x & Hx & Hrep).
      pose proof (Hmax x Hx) as Hle.
      destruct (Z.ltb_spec 1 (snd (st.mode (x0 :: array)))) as [_|Hge]; [|lia].
      eexists. split; [reflexivity|]. split; [exact Hv|].
      split; [congruence|]. intros y Hy. rewrite <- Hc. now apply Hmax.
Qed.

(** [1, 2, 3] has no mode; in [1, 2, 2, 3, 4] the value 2 occurs twice. *)
Lemma moda_absent_or_most_frequent_witness :
  moda [1; 2; 3] = None /\
  exists v, moda [1; 2; 2; 3; 4] = Some v /\ freq v [1; 2; 2; 3; 4] = 2%Z.
Proof.
  split.
  - apply (moda_absent_or_most_frequent [1; 2; 3] eq_refl).
    intros x [<-|[<-|[<-|[]]]]; reflexivity.
  - destruct (moda_absent_or_most_frequent [1; 2; 2; 3; 4] eq_refl) as [_ H].
    destruct H as (v & Hv & _ & Hf & _).
    + exists 2. split; [right; now left|reflexivity].
    + exists v. split; [exact Hv|]. rewrite Hf. reflexivity.
Defined.

(** C6, counterexample.  In [3, 3, 1, 1] the values 3 and 1 tie at the
    maximum frequency 2; scanning the sample in its order, 3 is the first
    value to reach that frequency (and the first value met), and [moda]
    returns 1. *)
Lemma moda_tie_not_first_reaching :
  freq 3 [3; 3; 1; 1] = 2%Z /\ freq 1 [3; 3; 1; 1] = 2%Z /\
  max_freq [3; 3; 1; 1] = 2%Z /\
  first_reaching_max [3; 3; 1; 1] = Some 3 /\
  moda [3; 3; 1; 1] = Some 1 /\
  (1 =? 3) = false.
Proof. repeat split. Qed.

(** C6, as the code has it.  On a sample of numbers, the value [moda]
    returns has the maximum frequency, and among the values that tie at
    that frequency it is the smallest: none of them is below it. *)
Theorem moda_tie_smallest (array : list float) (v : float) :
  all_numbers array = true -> moda array = Some v ->
  In v array /\
  freq v array = max_freq array /\
  (1 < max_freq array)%Z /\
  (forall y, In y array -> freq y array = max_freq array -> (y <? v) = false).
Proof.
  intros Hn. unfold moda.
  destruct array as [|x0 array]; [discriminate|].
  assert (Hne : x0 :: array <> []) by discriminate.
  destruct (mode_spec _ Hn Hne) as (Hv & Hc & _ & Hmin).
  pose proof (mode_count_max _ Hn Hne) as Hm.
  destruct (Z.ltb_spec 1 (snd (st.mode (x0 :: array)))) as [Hlt|_];
    [|discriminate].
  intros [= <-]. split; [exact Hv|]. split; [congruence|].
  split; [lia|]. intros y Hy Hf. apply Hmin; [exact Hy|congruence].
Qed.

(** The tie of [3, 3, 1, 1] goes to 1. *)
Lemma moda_tie_smallest_witness :
  moda [3; 3; 1; 1] = Some 1 /\ (3 <? 1) = false /\
  freq 1 [3; 3; 1; 1] = max_freq [3; 3; 1; 1].
Proof.
  destruct (moda_tie_smallest [3; 3; 1; 1] 1 eq_refl eq_refl)
    as (_ & Hf & _ & Hmin).
  split; [reflexivity|]. split; [|exact Hf].
  apply Hmin; [now left|reflexivity].
Defined.

End ModeClaims.

(** ** The sample-size formula *)

Section SampleSize.

Local Open Scope float_scope.

(** [Py.nearest_even] is a nearest integer: for a negative exponent [e] it
    is at most half a unit away from [m * 2^e], and even at exactly half. *)
Lemma nearest_even_nearest (m : positive) (e : Z) :
  (e < 0)%Z ->
  let d := (2 ^ (- e))%Z in
  let n := Py.nearest_even m e in
  (2 * Z.abs (n * d - Z.pos m) <= d)%Z /\
  (2 * Z.abs (n * d - Z.pos m) = d -> Z.even n = true)%Z.
Proof.
  intros He d n. unfold n, Py.nearest_even. fold d.
  assert (Hd : (0 < d)%Z) by (unfold d; apply Z.pow_pos_nonneg; lia).
  destruct (Z.leb_spec 0 e) as [|_]; [lia|].
  pose proof (Z.div_mod (Z.pos m) d ltac:(lia)) as Hdm.
  pose proof (Z.mod_pos_bound (Z.pos m) d Hd) as Hr.
  set (q := (Z.pos m / d)%Z) in *. set (r := (Z.pos m mod d)%Z) in *.
  destruct (Z.ltb_spec (2 * r) d); [split; [nia|intros; nia]|].
  destruct (Z.ltb_spec d (2 * r)); [split; [nia|intros; nia]|].
  assert (E : (2 * r = d)%Z) by lia.
  destruct (Z.even q) eqn:Eq.
  - split; [nia|intros; exact Eq].
  - split; [nia|]. intros _. rewrite Z.even_add, Eq. reflexivity.
Qed.




(** The last bit of [pow] decides the sample size: with [p = 0.5],
    [erro = 1] and a huge population the formula is a quarter of
    [confianca**2]; the rounded square of [0x1.edac054c8f94cp+3] is just
    below 238 and gives 59, a [pow] that returns 238 gives 59.5, which is
    rounded to 60. *)
Example calculo_amostral_last_bit :
  0x1.edac054c8f94cp+3 * 0x1.edac054c8f94cp+3 = 0x1.dbfffffffffffp+7 /\
  calculo_amostral (L := libm_rn) 0x1.edac054c8f94cp+3 0.5 1 (10 ^ 30)
  = Ok 59%Z /\
  calculo_amostral (L := libm_238) 0x1.edac054c8f94cp+3 0.5 1 (10 ^ 30)
  = Ok 60%Z.
Proof. repeat split. Qed.

End SampleSize.

(** ** Worked samples *)

Section Samples.

Local Open Scope float_scope.

(** The sample [1, 2, 2, 3, 4]: mean 2.4, median 2, mode 2, population
    standard deviation 1.0198. *)
Theorem resumir_sample_1_2_2_3_4 :
  resumir (L := libm_rn) [1; 2; 2; 3; 4] false
  = Ok (Resumo.mk 2.4 2 (Some 2) 1.0198 (Numero 1.177) (Numero 1.956)).
Proof. reflexivity. Qed.

(** Samples whose rounded Pearson coefficient is 0.1, 0.5 and 2.0: the
    intensity is "FORTE", "MODERADA" and "FORTE". *)
Theorem resumir_intensity_samples :
  (exists r, resumir (L := libm_rn) [0; 6; 13; 20] true = Ok r /\
             Resumo.pearson r
             = Texto 0.1 " - Assimétrica à direita ou positiva - FORTE") /\
  (exists r, resumir (L := libm_rn) [0; 9; 13; 29] true = Ok r /\
             Resumo.pearson r
             = Texto 0.5 " - Assimétrica à direita ou positiva - MODERADA") /\
  (exists r, resumir (L := libm_rn) [0; 1; 27] true = Ok r /\
             Resumo.pearson r
             = Texto 2.0 " - Assimétrica à direita ou positiva - FORTE") /\
  (exists r, resumir (L := libm_rn) [0; 16; 20; 29] true = Ok r /\
             Resumo.pearson r
             = Texto (-0.5) " - Assimétrica à esquerda ou negativa - MODERADA").
Proof. repeat split; eexists; split; reflexivity. Qed.

(** A constant sample whose mean is not computed exactly: three copies of
    [0.1 * 2^60] sum to a float that is not three times the value, the
    deviations are 16 and so is the standard deviation; the coefficient
    is then the finite number 3. *)
Theorem constant_sample_inexact_mean :
  let c := 0x1.999999999999ap56 in
  media [c; c; c] = 0x1.999999999999bp56 /\
  mediana [c; c; c] = c /\
  desvio_padrao [c; c; c] = 16 /\
  coef_pearson [c; c; c] = 3.
Proof. repeat split. Qed.

(** Eight values and more are summed pairwise: eight copies of 0.7 have
    the mean 0.7, which adding from left to right would miss by one unit in
    the last place, and their coefficient is [nan]; ten copies of 62.55
    have a mean below 62.55, a standard deviation that rounds to zero, and
    the coefficient minus infinity. *)
Example media_pairwise :
  media (repeat 0.7 8) = 0.7 /\
  fold_left add (repeat 0.7 8) neg_zero / 8 = 0.7000000000000001 /\
  coef_pearson (repeat 0.7 8) = nan /\
  media (repeat 62.55 10) = 62.54999999999999 /\
  desvio_padrao (repeat 62.55 10) = 0 /\
  coef_pearson (repeat 62.55 10) = neg_infinity.
Proof. repeat split. Qed.

(** [nan] is one value for the mode. *)
Example moda_nan :
  moda [nan; nan] = Some nan /\ moda [1; nan] = None /\
  moda [nan; 1; nan; 1] = Some 1.
Proof. repeat split. Qed.

(** Samples that are constant, or nearly so.  Seven copies of 0.47 have a
    mean that is not 0.47 and a variance above the threshold: the kurtosis
    is 1.  The values 1e16, 1e16 + 2 and 1e16 + 4 differ, and their
    variance is below the threshold: the kurtosis is [nan]. *)
Example curtose_nearly_constant :
  curtose (L := libm_rn) (repeat 0.47 7) = 1 /\
  desvio_padrao [1e16; 10000000000000002; 10000000000000004] = 1.633 /\
  curtose (L := libm_rn) [1e16; 10000000000000002; 10000000000000004] = nan.
Proof. repeat split. Qed.

End Samples.

(** ** The page: pieces of the text, plots and lines *)

Section Page.

Lemma split_not_nil (sep : ascii) (s : string) : Str.split sep s <> [].
Proof.
  induction s as [|c s IH]; simpl; [discriminate|].
  destruct (Ascii.eqb c sep); [discriminate|].
  destruct (Str.split sep s); discriminate.
Qed.

Lemma split_length (sep : ascii) (s : string) :
  List.length (Str.split sep s) = S (conta sep s).
Proof.
  induction s as [|c s IH]; simpl; [reflexivity|].
  destruct (Ascii.eqb c sep); simpl; [now rewrite IH|].
  destruct (Str.split sep s) as [|z zs] eqn:E; [discriminate|].
  exact IH.
Qed.

Lemma split_join (sep : ascii) (s : string) : join sep (Str.split sep s) = s.
Proof.
  induction s as [|c s IH]; simpl; [reflexivity|].
  destruct (Ascii.eqb_spec c sep) as [->|Hc].
  - pose proof (split_not_nil sep s) as Hn.
    destruct (Str.split sep s) as [|z zs]; [congruence|].
    simpl in *. now rewrite IH.
  - pose proof (split_not_nil sep s) as Hn.
    destruct (Str.split sep s) as [|z zs]; [congruence|].
    destruct zs as [|z' zs]; simpl in *; now rewrite <- IH.
Qed.

Lemma split_pieces (sep c : ascii) (s : string) :
  c <> sep ->
  (ocorre c s = true <->
   exists z, In z (Str.split sep s) /\ ocorre c z = true).
Proof.
  intros Hc. induction s as [|c' s IH]; simpl.
  - split; [discriminate|]. intros (z & [<-|[]] & H). discriminate.
  - pose proof (split_not_nil sep s) as Hn.
    destruct (Ascii.eqb_spec c' sep) as [->|Hc'].
    + assert (E : Ascii.eqb sep c = false)
        by (apply Ascii.eqb_neq; congruence).
      rewrite E. simpl. rewrite IH. split.
      * intros (z & Hz & H). exists z. split; [now right|exact H].
      * intros (z & [<-|Hz] & H); [discriminate|eauto].
    + destruct (Str.split sep s) as [|z0 zs]; [congruence|].
      rewrite orb_true_iff, IH. split.
      * intros [H|(z & [<-|Hz] & H)].
        -- exists (String c' z0). split; [now left|]. simpl. now rewrite H.
        -- exists (String c' z0). split; [now left|].
           simpl. rewrite H. apply orb_true_r.
        -- exists z. split; [now right|exact H].
      * intros (z & [<-|Hz] & H).
        -- simpl in H. apply orb_true_iff in H.
           destruct H as [H|H]; [now left|].
           right. exists z0. split; [now left|exact H].
        -- right. exists z. split; [now right|exact H].
Qed.

Lemma split_no_sep (sep : ascii) (s z : string) :
  In z (Str.split sep s) -> ocorre sep z = false.
Proof.
  revert z. induction s as [|c s IH]; simpl; intros z.
  - intros [<-|[]]. reflexivity.
  - destruct (Ascii.eqb_spec c sep) as [->|Hc].
    + intros [<-|H]; [reflexivity|now apply IH].
    + pose proof (split_not_nil sep s) as Hn.
      destruct (Str.split sep s) as [|z0 zs]; [congruence|].
      intros [<-|H].
      * simpl. apply Ascii.eqb_neq in Hc. rewrite Hc. simpl.
        apply IH. now left.
      * apply IH. now right.
Qed.

Lemma replace_removes (old : ascii) (s : string) :
  ocorre old (Str.replace old "" s) = false.
Proof.
  induction s as [|c s IH]; simpl; [reflexivity|].
  destruct (Ascii.eqb c old) eqn:E; simpl; [exact IH|].
  now rewrite E.
Qed.

(** The pieces of a text: joined by the separator they give the text
    back; there is one more piece than separators; no piece holds the
    separator; and any other character of the text is in some piece. *)
Theorem split_round_trip :
  forall (sep : ascii) (s : string),
    join sep (Str.split sep s) = s /\
    List.length (Str.split sep s) = S (conta sep s) /\
    (forall z, In z (Str.split sep s) -> ocorre sep z = false) /\
    (forall c, c <> sep ->
               (ocorre c s = true <->
                exists z, In z (Str.split sep s) /\ ocorre c z = true)).
Proof.
  intros sep s. split; [apply split_join|]. split; [apply split_length|].
  split; [intros z; apply split_no_sep|].
  intros c Hc. now apply split_pieces.
Qed.

Section Enviar.

Variable float_of_str : string -> option float.
Variable strip : string -> string.

Lemma floats_spec (tokens : list string) :
  (floats float_of_str tokens = Raise ValueError /\
   exists z, In z tokens /\ float_of_str z = None) \/
  (exists dados, floats float_of_str tokens = Ok dados /\
                 Forall2 (fun z x => float_of_str z = Some x) tokens dados).
Proof.
  induction tokens as [|z tokens IH]; simpl.
  - right. exists []. split; [reflexivity|constructor].
  - destruct (float_of_str z) as [x|] eqn:E.
    + destruct IH as [[-> (z' & Hz' & E')]|(dados & -> & H)].
      * left. split; [reflexivity|]. exists z'. split; [now right|exact E'].
      * right. exists (x :: dados). split; [reflexivity|now constructor].
    + left. split; [reflexivity|]. exists z. split; [now left|exact E].
Qed.

End Enviar.

(** [enviar] renders all or nothing.  Either [float] rejects one of the
    pieces between commas: then [ValueError] is raised and nothing has been
    called.  Or every piece is a float: then the sample has one value more
    than the text has commas, and the header, the figure rendered through
    streamlit and the six lines of the summary (with the analysis) are
    produced in this order.  The [NameError] of the empty sample cannot
    occur. *)
Theorem enviar_all_or_nothing {L : Libm} :
  forall (float_of_str : string -> option float) (strip : string -> string)
         (data : string),
    ((enviar float_of_str strip data = ([], Raise ValueError) /\
      exists z, In z (Str.split "," data) /\ float_of_str z = None) \/
     (exists dados a,
         Forall2 (fun z x => float_of_str z = Some x)
                 (Str.split "," data) dados /\
         List.length dados = S (conta "," data) /\
         resumir dados true = Ok a /\
         enviar float_of_str strip data
         = (stream_header "Análise"
              :: figura dados ++ [stream_pyplot] ++ linhas a,
            Ok tt))) /\
    (forall msg, snd (enviar float_of_str strip data) <> Raise (NameError msg)).
Proof.
  intros float_of_str strip data.
  assert (H : (enviar float_of_str strip data = ([], Raise ValueError) /\
      exists z, In z (Str.split "," data) /\ float_of_str z = None) \/
     (exists dados a,
         Forall2 (fun z x => float_of_str z = Some x)
                 (Str.split "," data) dados /\
         List.length dados = S (conta "," data) /\
         resumir dados true = Ok a /\
         enviar float_of_str strip data
         = (stream_header "Análise"
              :: figura dados ++ [stream_pyplot] ++ linhas a,
            Ok tt))).
  { unfold enviar.
    destruct (floats_spec float_of_str (Str.split "," data))
      as [[E Hz]|(dados & E & HF)]; rewrite E.
    - left. split; [reflexivity|exact Hz].
    - right. pose proof (Forall2_length HF) as HL.
      rewrite split_length in HL.
      destruct dados as [|x dados]; [discriminate|].
      eexists. eexists. split; [exact HF|]. split; [now symmetry|].
      split; reflexivity. }
  split; [exact H|].
  intros msg. destruct H as [[-> _]|(dados & a & _ & _ & _ & ->)]; discriminate.
Qed.

End Page.

(** ** Not-a-number, signs and the empty array *)

Section Edges.

Local Open Scope float_scope.

Lemma is_nan_eq (x : float) : is_nan x = true -> x = nan.
Proof. intros H. apply Prim2SF_inj. now apply is_nan_Prim2SF. Qed.

Lemma add_nan_l (x : float) : nan + x = nan.
Proof. apply Prim2SF_inj. rewrite add_spec. reflexivity. Qed.

Lemma add_nan_r (x : float) : x + nan = nan.
Proof.
  apply Prim2SF_inj. rewrite add_spec.
  change (Prim2SF nan) with S754_nan. now destruct (Prim2SF x).
Qed.

Lemma sub_nan_r (x : float) : x - nan = nan.
Proof.
  apply Prim2SF_inj. rewrite sub_spec.
  change (Prim2SF nan) with S754_nan. now destruct (Prim2SF x).
Qed.

Lemma div_nan_l (x : float) : nan / x = nan.
Proof. apply Prim2SF_inj. rewrite div_spec. reflexivity. Qed.

Lemma add_reduce_nan (l : list float) :
  In nan l -> np.add_reduce l = nan.
Proof. intros H. exact (sum_nan l _ (add_reduce_sum l) H). Qed.

Lemma leb_nan_l (y : float) : (nan <=? y) = false.
Proof. rewrite leb_spec. reflexivity. Qed.

Lemma existsb_nan_In (l : list float) :
  existsb is_nan l = true -> In nan l.
Proof.
  rewrite existsb_exists. intros (x & Hx & Hn).
  now rewrite <- (is_nan_eq x Hn).
Qed.

Lemma mean_nan (l : list float) : In nan l -> np.mean l = nan.
Proof. intros H. unfold np.mean. rewrite (add_reduce_nan l H). apply div_nan_l. Qed.

(** Deviations from a [nan] mean, and their powers, are all [nan]. *)
Lemma map_sub_nan (l : list float) :
  map (fun v => v - nan) l = repeat nan (List.length l).
Proof.
  induction l as [|x l IH]; simpl; [reflexivity|].
  now rewrite sub_nan_r, IH.
Qed.

Lemma map_sq_nan (n : nat) :
  map (fun v => v * v) (repeat nan n) = repeat nan n.
Proof. induction n as [|n IH]; simpl; [reflexivity|now rewrite IH]. Qed.

Lemma mean_repeat_nan (n : nat) : np.mean (repeat nan (S n)) = nan.
Proof. apply mean_nan. now left. Qed.

Lemma std_nan (l : list float) : In nan l -> np.std l 0 = nan.
Proof.
  intros H. unfold np.std, np.var. rewrite (mean_nan l H).
  rewrite map_sub_nan, map_sq_nan.
  destruct l as [|x l]; [contradiction|]. simpl List.length.
  rewrite add_reduce_nan by now left.
  rewrite div_nan_l. reflexivity.
Qed.

Lemma kurtosis_nan {L : Libm} (l : list float) (fisher : bool) :
  In nan l -> st.kurtosis l fisher = nan.
Proof.
  intros H. unfold st.kurtosis, st.moment2, st.moment4.
  rewrite (mean_nan l H), map_sub_nan, !map_sq_nan.
  destruct l as [|x l]; [contradiction|]. simpl List.length.
  rewrite mean_repeat_nan, leb_nan_l, div_nan_l. now destruct fisher.
Qed.

(** One [nan] in the sample (the text "nan" is a float) makes the mean,
    the median, the standard deviation, Pearson's coefficient and the
    kurtosis [nan]; nothing is raised, and with the analysis [resumir]
    labels the sample skewed to the left, "FORTE", and "Leptocúrtica". *)
Theorem nan_in_sample {L : Libm} (dados : list float) :
  existsb is_nan dados = true ->
  media dados = nan /\ mediana dados = nan /\
  desvio_padrao dados = nan /\ coef_pearson dados = nan /\
  curtose dados = nan /\
  forall analise : bool,
  exists r,
    resumir dados analise = Ok r /\
    Resumo.pearson r
    = (if analise
       then Texto nan " - Assimétrica à esquerda ou negativa - FORTE"
       else Numero nan) /\
    Resumo.curtose r
    = (if analise then Texto nan " - Leptocúrtica" else Numero nan).
Proof.
  intros Hn. pose proof (existsb_nan_In dados Hn) as Hin.
  assert (Hm : media dados = nan) by now apply mean_nan.
  assert (Hmed : mediana dados = nan)
    by (unfold mediana, np.median; now rewrite Hn).
  assert (Hs : desvio_padrao dados = nan)
    by (unfold desvio_padrao; now rewrite std_nan).
  assert (Hp : coef_pearson dados = nan)
    by (unfold coef_pearson; now rewrite Hm, Hmed, Hs).
  assert (Hk : curtose dados = nan)
    by (unfold curtose; now rewrite kurtosis_nan).
  repeat (split; [assumption|]).
  intros analise. rewrite resumir_nonempty by (intros ->; contradiction).
  eexists. split; [reflexivity|]. simpl. rewrite Hp, Hk.
  destruct analise; split; reflexivity.
Qed.

(** The sample [1, nan, 3]. *)
Lemma nan_in_sample_witness :
  media [1; nan; 3] = nan /\ desvio_padrao [1; nan; 3] = nan.
Proof.
  destruct (nan_in_sample (L := libm_rn) [1; nan; 3] eq_refl)
    as (Hm & _ & Hs & _).
  split; [exact Hm|exact Hs].
Defined.

(** The statistics guard nothing themselves: called on an empty array
    they raise nothing and return [nan]. *)
Theorem statistics_of_empty_array {L : Libm} :
  media [] = nan /\ mediana [] = nan /\ desvio_padrao [] = nan /\
  coef_pearson [] = nan /\ curtose [] = nan.
Proof.
  repeat (split; [reflexivity|]).
  unfold curtose, st.kurtosis, st.moment2, st.moment4. simpl map.
  change (np.mean []) with nan. now rewrite leb_nan_l, div_nan_l.
Qed.

Lemma SFcompare_opp (x y : spec_float) :
  SFcompare (SFopp x) (SFopp y) = SFcompare y x.
Proof.
  rewrite (SFcompare_sym x y).
  destruct x as [sx|sx| |sx mx ex], y as [sy|sy| |sy my ey];
    try destruct sx; try destruct sy; simpl; try reflexivity;
    destruct (ex ?= ey)%Z; simpl; try reflexivity;
    now rewrite ?CompOpp_involutive.
Qed.

Lemma fcmp_opp (x y : float) : fcmp (- x) (- y) = fcmp y x.
Proof. unfold fcmp. rewrite !opp_spec. apply SFcompare_opp. Qed.

Lemma abs_opp (x : float) : abs (- x) = abs x.
Proof.
  apply Prim2SF_inj. rewrite !abs_spec, opp_spec. now destruct (Prim2SF x).
Qed.

Lemma fcmp_opp_zero (v : float) :
  fcmp (- v) 0 = fcmp 0 v /\ fcmp 0 (- v) = fcmp v 0.
Proof.
  assert (E : (neg_zero =? 0) = true) by reflexivity.
  split.
  - rewrite <- (feqb_compat_r neg_zero 0 (- v) E).
    change neg_zero with (- 0). apply fcmp_opp.
  - rewrite <- (feqb_compat_l neg_zero 0 (- v) E).
    change neg_zero with (- 0). apply fcmp_opp.
Qed.

(** The label of a mirrored coefficient: the direction is the opposite
    one and the intensity is the same. *)
Theorem analise_pearson_mirror :
  forall v : float,
    intensidade (- v) = intensidade v /\
    ((v =? 0) = true -> analise_pearson (- v) = Texto (- v) " - Simétrica") /\
    ((0 <? v) = true ->
     analise_pearson (- v)
     = Texto (- v)
         (" - Assimétrica à esquerda ou negativa - " ++ intensidade v)) /\
    ((v <? 0) = true ->
     analise_pearson (- v)
     = Texto (- v)
         (" - Assimétrica à direita ou positiva - " ++ intensidade v)).
Proof.
  intros v.
  assert (Hi : intensidade (- v) = intensidade v)
    by (unfold intensidade; now rewrite abs_opp).
  destruct (fcmp_opp_zero v) as [E1 E2].
  destruct (analise_pearson_cases (- v)) as (H0 & Hpos & Hneg).
  rewrite Hi in Hpos, Hneg.
  split; [exact Hi|]. split; [|split]; intros H.
  - apply H0. apply feqb_fcmp. rewrite E1.
    apply feqb_fcmp in H. rewrite fcmp_sym, H. reflexivity.
  - apply Hneg. apply fltb_fcmp. rewrite E1. now apply fltb_fcmp.
  - apply Hpos. apply fltb_fcmp. rewrite E2. now apply fltb_fcmp.
Qed.

Lemma is_nan_opp (x : float) : is_nan (- x) = is_nan x.
Proof.
  destruct (is_nan x) eqn:E.
  - now rewrite (is_nan_eq x E).
  - apply not_true_is_false. intros H. apply is_nan_Prim2SF in H.
    rewrite opp_spec in H.
    assert (Hx : Prim2SF x = S754_nan) by now destruct (Prim2SF x).
    apply is_nan_Prim2SF in Hx. congruence.
Qed.

Lemma feqb_opp_zero (x : float) : (- x =? 0) = (x =? 0).
Proof.
  rewrite !eqb_spec, opp_spec.
  destruct (Prim2SF x) as [[]|[]| |[] m e]; reflexivity.
Qed.

(** The base that [float_pow] hands to the math library is the same for a
    number and its opposite. *)
Lemma base_opp (x : float) :
  is_nan x = false -> (x =? 0) = false ->
  (if - x <? 0 then - - x else - x) = (if x <? 0 then - x else x).
Proof.
  intros Hn Hz.
  assert (Hoo : - - x = x).
  { apply Prim2SF_inj. rewrite !opp_spec.
    destruct (Prim2SF x) as [[]|[]| |[] m e]; reflexivity. }
  assert (H : (- x <? 0) = negb (x <? 0)).
  { rewrite !ltb_spec, opp_spec. rewrite eqb_spec in Hz.
    destruct (Prim2SF x) as [[]|[]| |[] m e] eqn:E; try reflexivity;
      try discriminate.
    apply is_nan_Prim2SF in E. congruence. }
  rewrite H. destruct (x <? 0); simpl; [reflexivity|exact Hoo].
Qed.

Lemma pow2_opp {L : Libm} (x : float) : Py.pow2 (- x) = Py.pow2 x.
Proof.
  unfold Py.pow2. rewrite is_nan_opp.
  destruct (is_nan x) eqn:En; [now rewrite (is_nan_eq x En)|].
  assert (Ei : is_infinity (- x) = is_infinity x)
    by (unfold is_infinity; now rewrite abs_opp).
  rewrite Ei, abs_opp, feqb_opp_zero.
  destruct (is_infinity x); [reflexivity|].
  destruct (x =? 0) eqn:Ez; [reflexivity|].
  now rewrite (base_opp x En Ez).
Qed.

(** [calculo_amostral] does not look at the signs of [confianca] and
    [erro]: only their squares enter the formula, so a negative confidence
    coefficient or a negative error gives what its opposite gives, be it a
    number or an exception. *)
Theorem calculo_amostral_signs {L : Libm} :
  forall (confianca p erro : float) (N : Z),
    calculo_amostral (- confianca) p erro N = calculo_amostral confianca p erro N /\
    calculo_amostral confianca p (- erro) N = calculo_amostral confianca p erro N.
Proof.
  intros confianca p erro N. unfold calculo_amostral.
  now rewrite !pow2_opp.
Qed.

End Edges.

(** ** The order of the sample *)

Section OrderOfSample.

Local Open Scope float_scope.

Lemma numbers_perm (a b : list float) :
  all_numbers a = true -> Permutation a b -> all_numbers b = true.
Proof.
  intros Ha Hp. apply all_numbers_Forall.
  apply (Permutation_Forall Hp). now apply all_numbers_Forall.
Qed.

Lemma feqb_of_not_ltb (x y : float) :
  is_nan x = false -> is_nan y = false ->
  (x <? y) = false -> (y <? x) = false -> (x =? y) = true.
Proof.
  intros Hx Hy H1 H2. destruct (x =? y) eqn:E; [reflexivity|].
  rewrite (fltb_total x y Hx Hy H1 E) in H2. discriminate.
Qed.

Lemma feqb_not_ltb (x y : float) : (x =? y) = true -> (x <? y) = false.
Proof.
  intros H. destruct (x <? y) eqn:E; [|reflexivity].
  rewrite (fltb_not_eqb x y E) in H. discriminate.
Qed.

(** [moda] does not depend on the order of the sample: two arrangements
    of the same numbers both have no mode, or have modes that are equal. *)
Theorem moda_order_independent (a b : list float) :
  all_numbers a = true -> Permutation a b ->
  match moda a, moda b with
  | Some v, Some w => (v =? w) = true
  | None, None => True
  | _, _ => False
  end.
Proof.
  intros Ha Hp. pose proof (numbers_perm a b Ha Hp) as Hb.
  destruct a as [|x a].
  - apply Permutation_nil in Hp. subst. exact I.
  - assert (Hna : x :: a <> []) by discriminate.
    assert (Hnb : b <> []).
    { intros ->. apply Permutation_sym, Permutation_nil in Hp. discriminate. }
    destruct (mode_spec _ Ha Hna) as (Hva & Hca & Hmaxa & Hmina).
    destruct (mode_spec _ Hb Hnb) as (Hvb & Hcb & Hmaxb & Hminb).
    assert (Hf : forall y, freq y (x :: a) = freq y b)
      by (intros y; now apply freq_perm).
    set (v := fst (st.mode (x :: a))) in *.
    set (w := fst (st.mode b)) in *.
    assert (Hc : snd (st.mode (x :: a)) = snd (st.mode b)).
    { pose proof (Hmaxb v (Permutation_in _ Hp Hva)) as H1.
      pose proof (Hmaxa w (Permutation_in _ (Permutation_sym Hp) Hvb)) as H2.
      rewrite <- Hf in H1. rewrite Hf in H2. lia. }
    unfold moda. cbv zeta. fold v w. rewrite <- Hc.
    destruct (1 <? snd (st.mode (x :: a)))%Z; [|exact I].
    rewrite all_numbers_Forall, Forall_forall in Ha, Hb.
    apply feqb_of_not_ltb.
    + now apply Ha.
    + now apply Hb.
    + apply Hminb; [exact (Permutation_in _ Hp Hva)|].
      rewrite <- Hf. congruence.
    + apply Hmina; [exact (Permutation_in _ (Permutation_sym Hp) Hvb)|].
      rewrite Hf. congruence.
Qed.

(** [3, 3, 1, 1] and [1, 3, 1, 3]. *)
Lemma moda_order_independent_witness :
  exists v w,
    moda [3; 3; 1; 1] = Some v /\ moda [1; 3; 1; 3] = Some w /\
    (v =? w) = true.
Proof.
  assert (Hp : Permutation [3; 3; 1; 1] [1; 3; 1; 3]).
  { apply (perm_trans (l' := [3; 1; 3; 1])).
    - apply perm_skip, perm_swap.
    - apply (perm_trans (l' := [1; 3; 3; 1])).
      + apply perm_swap.
      + apply perm_skip, perm_skip, perm_swap. }
  exists 1, 1. split; [reflexivity|]. split; [reflexivity|].
  exact (moda_order_independent [3; 3; 1; 1] [1; 3; 1; 3] eq_refl Hp).
Defined.

Lemma freq_pos_in (x : float) (l : list float) :
  (1 <= freq x l)%Z -> exists y, In y l /\ (y =? x) = true.
Proof.
  induction l as [|y l IH]; [unfold freq; simpl; lia|].
  rewrite freq_cons. destruct (y =? x) eqn:E.
  - intros _. exists y. split; [now left|exact E].
  - intros H. destruct (IH H) as (z & Hz & Ez). exists z. split; [now right|exact Ez].
Qed.

(** Two sorted arrays of numbers with the same frequencies are equal,
    element by element. *)
Lemma sorted_unique (l1 l2 : list float) :
  Forall (fun y => is_nan y = false) l1 ->
  Forall (fun y => is_nan y = false) l2 ->
  StronglySorted fle l1 -> StronglySorted fle l2 ->
  (forall z, freq z l1 = freq z l2) ->
  Forall2 (fun x y => (x =? y) = true) l1 l2.
Proof.
  revert l2. induction l1 as [|x1 t1 IH]; intros [|x2 t2] Hn1 Hn2 Hs1 Hs2 Hf.
  - constructor.
  - inversion Hn2; subst.
    pose proof (freq_in x2 (x2 :: t2) (or_introl eq_refl) ltac:(assumption)).
    rewrite <- Hf in H. unfold freq in H. simpl in H. lia.
  - inversion Hn1; subst.
    pose proof (freq_in x1 (x1 :: t1) (or_introl eq_refl) ltac:(assumption)).
    rewrite Hf in H. unfold freq in H. simpl in H. lia.
  - inversion Hn1 as [|? ? Hx1 Hn1']; subst.
    inversion Hn2 as [|? ? Hx2 Hn2']; subst.
    inversion Hs1 as [|? ? Hs1' Hall1]; subst.
    inversion Hs2 as [|? ? Hs2' Hall2]; subst.
    rewrite Forall_forall in Hall1, Hall2.
    assert (H21 : (x2 <? x1) = false).
    { pose proof (freq_in x2 (x2 :: t2) (or_introl eq_refl) Hx2) as H.
      rewrite <- Hf in H. destruct (freq_pos_in _ _ H) as (y & [<-|Hy] & Ey).
      - rewrite feqb_sym in Ey. now apply feqb_not_ltb.
      - rewrite <- (feqb_ltb_l y x2 x1 Ey). now apply Hall1. }
    assert (H12 : (x1 <? x2) = false).
    { pose proof (freq_in x1 (x1 :: t1) (or_introl eq_refl) Hx1) as H.
      rewrite Hf in H. destruct (freq_pos_in _ _ H) as (y & [<-|Hy] & Ey).
      - rewrite feqb_sym in Ey. now apply feqb_not_ltb.
      - rewrite <- (feqb_ltb_l y x1 x2 Ey). now apply Hall2. }
    pose proof (feqb_of_not_ltb x1 x2 Hx1 Hx2 H12 H21) as E.
    constructor; [exact E|].
    apply IH; auto. intros z. specialize (Hf z).
    rewrite !freq_cons, (feqb_eqb_l x1 x2 z E) in Hf. lia.
Qed.

Lemma zero_Prim2SF (x : float) (s : bool) :
  Prim2SF x = S754_zero s -> (x =? 0) = true.
Proof. intros H. rewrite eqb_spec, H. reflexivity. Qed.

Lemma feqb_same (x y : float) : (x =? y) = true -> same x y.
Proof.
  rewrite feqb_fcmp. unfold fcmp. intros H.
  destruct (SFcompare_Eq _ _ H) as [E|(s & s' & E & E')].
  - left. now apply Prim2SF_inj.
  - right. split; eapply zero_Prim2SF; eassumption.
Qed.

Lemma add_zero_l (x y : float) :
  (x =? 0) = true -> (y =? 0) = false -> x + y = y.
Proof.
  intros Hx Hy. destruct (Prim2SF_eq_zero x Hx) as [s Hs].
  apply Prim2SF_inj. rewrite add_spec, Hs.
  destruct (Prim2SF y) as [sy|sy| |sy my ey] eqn:E; try reflexivity.
  rewrite (zero_Prim2SF y sy E) in Hy. discriminate.
Qed.

Lemma div_nan_r (x : float) : x / nan = nan.
Proof.
  apply Prim2SF_inj. rewrite div_spec.
  change (Prim2SF nan) with S754_nan. now destruct (Prim2SF x).
Qed.

Lemma same_refl (x : float) : same x x.
Proof. now left. Qed.

Lemma same_add (x x' y y' : float) :
  same x x' -> same y y' -> same (x + y) (x' + y').
Proof.
  assert (L : forall u u' w, same u u' -> same (u + w) (u' + w)).
  { intros u u' w [->|[Hu Hu']]; [now left|].
    destruct (w =? 0) eqn:Ew.
    - right. destruct (feqb_zero_cases u Hu) as [-> | ->],
                      (feqb_zero_cases u' Hu') as [-> | ->],
                      (feqb_zero_cases w Ew) as [-> | ->]; split; reflexivity.
    - left. now rewrite !add_zero_l. }
  assert (R : forall u w w', same w w' -> same (u + w) (u + w')).
  { intros u w w' [->|[Hw Hw']]; [now left|].
    destruct (u =? 0) eqn:Eu.
    - right. destruct (feqb_zero_cases u Eu) as [-> | ->],
                      (feqb_zero_cases w Hw) as [-> | ->],
                      (feqb_zero_cases w' Hw') as [-> | ->]; split; reflexivity.
    - left. assert (Z : forall z, (z =? 0) = true -> u + z = u).
      { intros z Hz. destruct (Prim2SF_eq_zero z Hz) as [s Hs].
        apply Prim2SF_inj. rewrite add_spec, Hs.
        destruct (Prim2SF u) as [su|su| |su mu eu] eqn:E; try reflexivity.
        rewrite (zero_Prim2SF u su E) in Eu. discriminate. }
      now rewrite !Z. }
  intros Hx Hy.
  destruct (L x x' y Hx) as [E|[E1 E2]]; destruct (R x' y y' Hy) as [E'|[E1' E2']].
  - left. congruence.
  - right. split; [congruence|assumption].
  - right. split; [assumption|congruence].
  - right. split; assumption.
Qed.

Lemma same_div (x x' c : float) : same x x' -> same (x / c) (x' / c).
Proof.
  intros [->|[Hx Hx']]; [now left|].
  destruct (is_nan c) eqn:En.
  - left. rewrite (is_nan_eq c En). now rewrite !div_nan_r.
  - destruct (c =? 0) eqn:Ec.
    + left. now rewrite !zero_div_zero.
    + right. split; now apply zero_div_nonzero.
Qed.

Lemma fold_add_same (l l' : list float) :
  Forall2 same l l' ->
  forall acc acc', same acc acc' ->
                   same (fold_left add l acc) (fold_left add l' acc').
Proof.
  induction 1 as [|x x' l l' Hx _ IH]; intros acc acc' Ha; simpl;
    [exact Ha|].
  apply IH. now apply same_add.
Qed.

(** The mean of fewer than eight values, as the median takes it. *)
Lemma mean_same (l l' : list float) :
  Forall2 same l l' -> (List.length l < 8)%nat ->
  same (np.mean l) (np.mean l').
Proof.
  intros H Hl. unfold np.mean, np.count.
  rewrite <- (Forall2_length H). apply same_div.
  rewrite (add_reduce_short l Hl).
  rewrite (add_reduce_short l') by (rewrite <- (Forall2_length H); exact Hl).
  apply same_add; [destruct H; apply same_refl|].
  apply fold_add_same; [exact H|apply same_refl].
Qed.

Lemma Forall2_slice (R : float -> float -> Prop) (lo hi : nat)
      (l l' : list float) :
  Forall2 R l l' -> Forall2 R (np.slice lo hi l) (np.slice lo hi l').
Proof.
  intros H. unfold np.slice.
  assert (S : Forall2 R (skipn lo l) (skipn lo l')).
  { revert lo. induction H; intros [|lo]; simpl; auto. }
  revert S. generalize (skipn lo l) (skipn lo l') (hi - lo)%nat.
  intros m m' n S. revert n. induction S; intros [|n]; simpl; auto.
Qed.

(** [mediana] does not depend on the order of the sample: two
    arrangements of the same numbers have the same median (the same float,
    or two zeros). *)
Theorem mediana_order_independent (a b : list float) :
  all_numbers a = true -> Permutation a b ->
  same (mediana a) (mediana b).
Proof.
  intros Ha Hp. pose proof (numbers_perm a b Ha Hp) as Hb.
  unfold mediana, np.median.
  rewrite (numbers_no_nan a Ha), (numbers_no_nan b Hb).
  rewrite <- (Permutation_length Hp).
  assert (HS : Forall2 same (np.sort a) (np.sort b)).
  { apply all_numbers_Forall in Ha, Hb.
    eapply Forall2_impl; [exact feqb_same|].
    apply sorted_unique.
    - exact (Permutation_Forall (sort_perm a) Ha).
    - exact (Permutation_Forall (sort_perm b) Hb).
    - now apply sort_sorted.
    - now apply sort_sorted.
    - intros z. rewrite <- (freq_perm z _ _ (sort_perm a)).
      rewrite <- (freq_perm z _ _ (sort_perm b)). now apply freq_perm. }
  destruct (Nat.odd (List.length a));
    (apply mean_same;
     [apply Forall2_slice, HS|unfold np.slice; rewrite length_firstn; lia]).
Qed.

(** [3, 1, 2] and [1, 2, 3]. *)
Lemma mediana_order_independent_witness :
  same (mediana [3; 1; 2]) (mediana [1; 2; 3]) /\ mediana [3; 1; 2] = 2.
Proof.
  assert (Hp : Permutation [3; 1; 2] [1; 2; 3]).
  { apply (perm_trans (l' := [1; 3; 2])).
    - apply perm_swap.
    - apply perm_skip, perm_swap. }
  split; [|reflexivity].
  exact (mediana_order_independent [3; 1; 2] [1; 2; 3] eq_refl Hp).
Defined.

(** [media] depends on the order: floating-point addition is not
    associative. *)
Example media_order_dependent :
  media [1e16; 1; -1e16] = 0 /\ media [1e16; -1e16; 1] = 0x1.5555555555555p-2.
Proof. split; reflexivity. Qed.

End OrderOfSample.

(** ** Sums of few elements *)

Section SmallSums.

Local Open Scope float_scope.

Lemma same_trans (x y z : float) : same x y -> same y z -> same x z.
Proof.
  intros [->|[Hx Hy]] [<-|[Hy' Hz]].
  - now left.
  - right. now split.
  - right. now split.
  - right. now split.
Qed.

(** Adding a zero of either sign leaves a float as it is, or leaves a
    zero. *)
Lemma zero_add_same (z y : float) :
  (z =? 0) = true -> same (z + y) y /\ same (y + z) y.
Proof.
  intros Hz. destruct (y =? 0) eqn:E.
  - destruct (feqb_zero_cases z Hz) as [-> | ->],
             (feqb_zero_cases y E) as [-> | ->]; split;
      (right; split; reflexivity).
  - split; left.
    + now apply add_zero_l.
    + destruct (Prim2SF_eq_zero z Hz) as [s Hs].
      apply Prim2SF_inj. rewrite add_spec, Hs.
      destruct (Prim2SF y) as [sy|sy| |sy my ey] eqn:Ey; try reflexivity.
      rewrite (zero_Prim2SF y sy Ey) in E. discriminate.
Qed.

(** A sum of no element is a zero, and a sum of one element is that
    element. *)
Lemma sum_of_small (l : list float) (v : float) :
  sum_of l v ->
  (l = [] -> (v =? 0) = true) /\ (forall x, l = [x] -> same v x).
Proof.
  induction 1 as [z Hz|x|l1 l2 v1 v2 _ [IH1 IH1'] _ [IH2 IH2']
                 |l l' v Hp _ [IH IH']].
  - split; [intros _; exact Hz|discriminate].
  - split; [discriminate|]. intros y [= <-]. now left.
  - split.
    + intros E. apply app_eq_nil in E. destruct E as [E1 E2].
      destruct (feqb_zero_cases v1 (IH1 E1)) as [-> | ->],
               (feqb_zero_cases v2 (IH2 E2)) as [-> | ->]; reflexivity.
    + intros x E. destruct l1 as [|a [|b l1]]; simpl in E.
      * subst l2. apply (same_trans _ v2); [|now apply IH2'].
        now apply zero_add_same, IH1.
      * injection E as <- ->. apply (same_trans _ v1); [|now apply IH1'].
        now apply zero_add_same, IH2.
      * discriminate.
  - split.
    + intros ->. apply IH. now apply Permutation_nil, Permutation_sym.
    + intros x ->. apply IH'.
      now apply Permutation_length_1_inv, Permutation_sym.
Qed.

End SmallSums.

(** ** Not-a-number in the sample-size formula *)

Section SampleSizeNan.

Local Open Scope float_scope.





End SampleSizeNan.
